(** * Title-case conversion engine (TitleCaseModule)

    A shallow embedding of [TitleCaseModule] (tokenizer, grammatical
    classifier and style rule engine) and the properties of its public
    conversion path [toTitleCase].

    JavaScript strings are sequences of UTF-16 code units; the tokenizer's
    regular expression has no [u] flag and therefore works on code units,
    so a string is modelled as a list of code units. *)

From Stdlib Require Import String Ascii.
From Stdlib Require Import List NArith ZArith Bool Arith Lia.
Import ListNotations.


(** ** Strings *)

Definition code_unit := N.
Definition jsstring := list code_unit.

(** A string literal of the source, as code units. *)
Definition str (s : string) : jsstring :=
  map N_of_ascii (list_ascii_of_string s).

(** [a === b] on strings. *)
Fixpoint streq (a b : jsstring) : bool :=
  match a, b with
  | [], [] => true
  | x :: a', y :: b' => N.eqb x y && streq a' b'
  | _, _ => false
  end.

(** [Set.prototype.has] and [Array.prototype.includes] on strings. *)
Definition has (set : list jsstring) (x : jsstring) : bool :=
  existsb (streq x) set.

(** [String.prototype.includes] for a one-character needle. *)
Definition includes_char (s : jsstring) (c : code_unit) : bool :=
  existsb (N.eqb c) s.

(** [text.substring(a, b)] for [a <= b]. *)
Definition substring (text : jsstring) (a b : nat) : jsstring :=
  firstn (b - a) (skipn a text).

Definition HYPHEN : code_unit := 45%N.
Definition EN_DASH : code_unit := 8211%N.
Definition EM_DASH : code_unit := 8212%N.
Definition COLON : code_unit := 58%N.

(** ** Case mapping

    [String.prototype.toLowerCase] and [toUpperCase] follow the Unicode
    case mappings.  The tables below are those mappings on the Basic Latin
    block (code units below 128) and on two further code points whose
    mappings are not one-to-one: U+00DF (sharp s, upper-cased to "SS") and
    U+212A (Kelvin sign, lower-cased to "k" and unchanged by upper-casing).
    Every other code unit is left unchanged by the tables, which the
    built-ins do not do (they map U+00E9 to U+00C9, U+00CB to U+00EB and
    U+0130 to two code units, for instance); so every statement that
    depends on the mapping of a particular character is made for inputs
    over the Basic Latin block, or at these two code points. *)

Definition is_ascii (c : code_unit) : bool := (c <? 128)%N.

Definition SHARP_S : code_unit := 223%N.
Definition KELVIN : code_unit := 8490%N.

Definition lower_unit (c : code_unit) : code_unit :=
  if ((65 <=? c) && (c <=? 90))%N then (c + 32)%N
  else if (c =? KELVIN)%N then 107%N
  else c.

Definition upper_unit (c : code_unit) : jsstring :=
  if ((97 <=? c) && (c <=? 122))%N then [(c - 32)%N]
  else if (c =? SHARP_S)%N then [83%N; 83%N]
  else [c].

Definition toLowerCase (s : jsstring) : jsstring := map lower_unit s.
Definition toUpperCase (s : jsstring) : jsstring := flat_map upper_unit s.

(** [capitalize(word)]:
    [if (!word) return word;
     return word.charAt(0).toUpperCase() + word.slice(1).toLowerCase()]. *)
Definition capitalize (word : jsstring) : jsstring :=
  match word with
  | [] => word
  | c :: rest => toUpperCase [c] ++ toLowerCase rest
  end.

(** ** Word classification lists (constructor of [TitleCaseModule]) *)

Definition words (l : list string) : list jsstring := map str l.

Definition articles := words ["a"; "an"; "the"]%string.

Definition coordinatingConjunctions :=
  words ["and"; "but"; "for"; "nor"; "or"; "yet"; "so"]%string.

Definition subordinatingConjunctions :=
  words ["as"; "if"; "because"; "when"; "whenever"; "while"; "where";
         "whereas"; "although"; "though"; "unless"; "until"; "since";
         "after"; "before"; "that"; "whether"; "once"; "lest"; "provided";
         "supposing"]%string.

Definition prepositions1 := words ["v"]%string.
Definition prepositions2 :=
  words ["at"; "by"; "in"; "of"; "on"; "to"; "up"]%string.
Definition prepositions3 :=
  words ["for"; "off"; "out"; "via"; "per"; "pro"; "bar"; "qua"; "mid"]%string.
Definition prepositions4 :=
  words ["from"; "into"; "unto"; "with"; "amid"; "atop"; "down"; "like";
         "near"; "next"; "over"; "past"; "plus"; "sans"; "save"; "than";
         "thru"]%string.
Definition prepositions5Plus :=
  words ["about"; "above"; "across"; "after"; "against"; "along"; "among";
         "around"; "before"; "behind"; "below"; "beneath"; "beside";
         "besides"; "between"; "beyond"; "during"; "except"; "inside";
         "outside"; "through"; "throughout"; "toward"; "towards"; "under";
         "underneath"; "unlike"; "until"; "within"; "without"; "aboard";
         "absent"; "across"; "according"; "alongside"; "amidst"; "amongst";
         "around"; "aslant"; "astride"; "barring"; "beside"; "besides";
         "betwixt"; "circa"; "concerning"; "considering"; "despite";
         "excluding"; "failing"; "following"; "given"; "including";
         "notwithstanding"; "opposite"; "pending"; "regarding"; "respecting";
         "round"; "saving"; "touching"; "versus"]%string.

Definition nytLowercaseWords :=
  words ["a"; "and"; "as"; "at"; "but"; "by"; "en"; "for"; "if"; "in"; "of";
         "on"; "or"; "the"; "to"; "v."; "vs."; "via"]%string.

Definition nytCapitalizeWords :=
  words ["no"; "nor"; "not"; "off"; "out"; "so"; "up"]%string.

Definition isPreposition (lowerWord : jsstring) : bool :=
  has prepositions1 lowerWord ||
  has prepositions2 lowerWord ||
  has prepositions3 lowerWord ||
  has prepositions4 lowerWord ||
  has prepositions5Plus lowerWord.

(** ** Style identifiers

    The style is passed around as a string and compared with [===]. *)

Definition AMA := str "AMA".
Definition AP := str "AP".
Definition APA := str "APA".
Definition Bluebook := str "Bluebook".
Definition Chicago := str "Chicago".
Definition MLA := str "MLA".
Definition NewYorkTimes := str "New York Times".
Definition Wikipedia := str "Wikipedia".

Definition namedStyles : list jsstring :=
  [AMA; AP; APA; Bluebook; Chicago; MLA; NewYorkTimes; Wikipedia].

(** ** Part-of-speech tags and the optional tagger

    The values of [posTag] and [grammaticalFunction]; [null] is [None]. *)

Inductive POS : Type :=
| verb | noun | adjective | adverb | preposition | conjunction | article
| pronoun | infinitive.

Definition POS_eqb (a b : POS) : bool :=
  match a, b with
  | verb, verb | noun, noun | adjective, adjective | adverb, adverb
  | preposition, preposition | conjunction, conjunction | article, article
  | pronoun, pronoun | infinitive, infinitive => true
  | _, _ => false
  end.

(** What the engine asks of one term of the tagger's document:
    [term.has('#Verb')], ..., whether the call [term.next()] throws (as it
    does on a term that has no such method) and, when it returns, whether
    its result exists and is a verb. *)
Record Term : Type := {
  hasVerb : bool;
  hasNoun : bool;
  hasAdjective : bool;
  hasAdverb : bool;
  hasPreposition : bool;
  hasConjunction : bool;
  hasArticle : bool;
  hasPronoun : bool;
  hasPhrasalVerb : bool;
  hasAcronym : bool;
  nextHasVerb : bool;
  nextThrows : bool
}.

(** [this.nlp]: the terms of the analysed text.  An entry is [None] when
    the look-up of that term or [getPOSTag] on it throws (the exception is
    swallowed by the tokenizer); an analysis that throws as a whole yields
    no terms. *)
Definition Tagger := jsstring -> list (option Term).

Definition getPOSTag (term : Term) : option POS :=
  if hasVerb term then Some verb
  else if hasNoun term then Some noun
  else if hasAdjective term then Some adjective
  else if hasAdverb term then Some adverb
  else if hasPreposition term then Some preposition
  else if hasConjunction term then Some conjunction
  else if hasArticle term then Some article
  else if hasPronoun term then Some pronoun
  else None.

Definition posTag_is (posTag : option POS) (p : POS) : bool :=
  match posTag with Some q => POS_eqb q p | None => false end.

Definition ambiguousWords :=
  words ["in"; "out"; "up"; "on"; "off"; "down"; "by"; "over"]%string.

(** The value [determineGrammaticalFunction] returns, when it returns;
    [determineGrammaticalFunction_throws] below tells when it throws
    instead. *)
Definition determineGrammaticalFunction
  (word : jsstring) (term : Term) (posTag : option POS) : option POS :=
  let lowerWord := toLowerCase word in
  let r1 :=
    if has ambiguousWords lowerWord then
      if posTag_is posTag adverb then Some adverb
      else if posTag_is posTag verb then Some verb
      else if posTag_is posTag preposition then Some preposition
      else if hasPhrasalVerb term then Some adverb
      else None
    else None in
  match r1 with
  | Some r => Some r
  | None =>
    let r2 :=
      if streq lowerWord (str "a") && (length word =? 1) then
        if posTag_is posTag noun || hasAcronym term then Some noun
        else if posTag_is posTag article then Some article
        else None
      else None in
    match r2 with
    | Some r => Some r
    | None =>
      let r3 :=
        if streq lowerWord (str "to") then
          if nextHasVerb term then Some infinitive
          else if posTag_is posTag preposition then Some preposition
          else None
        else None in
      match r3 with
      | Some r => Some r
      | None => posTag
      end
    end
  end.

(** [determineGrammaticalFunction] throws when it reaches the call
    [term.next()], that is, when neither of the first two blocks has
    returned and [lowerWord === 'to'], and that call throws. *)
Definition determineGrammaticalFunction_throws
  (word : jsstring) (term : Term) (posTag : option POS) : bool :=
  let lowerWord := toLowerCase word in
  let returned1 :=
    has ambiguousWords lowerWord &&
    (posTag_is posTag adverb || posTag_is posTag verb
     || posTag_is posTag preposition || hasPhrasalVerb term) in
  let returned2 :=
    streq lowerWord (str "a") && (length word =? 1) &&
    (posTag_is posTag noun || hasAcronym term
     || posTag_is posTag article) in
  negb returned1 && negb returned2 && streq lowerWord (str "to")
  && nextThrows term.

(** ** Tokenizer *)

(** The class [\s] of the regular expression. *)
Definition is_white_space (c : code_unit) : bool :=
  (((9 <=? c) && (c <=? 13)) || (c =? 32) || (c =? 160) || (c =? 5760) ||
   ((8192 <=? c) && (c <=? 8202)) || (c =? 8232) || (c =? 8233) ||
   (c =? 8239) || (c =? 8287) || (c =? 12288) || (c =? 65279))%N.

(** The characters excluded by the class [[^\s\-\u2014\u2013]]. *)
Definition is_boundary (c : code_unit) : bool :=
  (is_white_space c || (c =? HYPHEN) || (c =? EM_DASH) || (c =? EN_DASH))%N.

Definition is_word_char (c : code_unit) : bool := negb (is_boundary c).

Fixpoint take_while (p : code_unit -> bool) (s : jsstring) : jsstring :=
  match s with
  | [] => []
  | c :: r => if p c then c :: take_while p r else []
  end.

(** [regex.exec(text)] with [regex.lastIndex = lastIndex] for
    [/([^\s\-\u2014\u2013]+)/g]: the leftmost, longest run of word characters at or
    after [lastIndex], as [(match.index, match[0])]; afterwards
    [regex.lastIndex] is [match.index + match[0].length]. *)
Definition regex_exec (text : jsstring) (lastIndex : nat)
  : option (nat * jsstring) :=
  let rest := skipn lastIndex text in
  let skipped := length (take_while is_boundary rest) in
  match take_while is_word_char (skipn skipped rest) with
  | [] => None
  | m => Some (lastIndex + skipped, m)
  end.

(** [text.match(regex) || []]: all the matches, from [lastIndex = 0]. *)
Fixpoint match_all_from (fuel : nat) (text : jsstring) (lastIndex : nat)
  : list jsstring :=
  match fuel with
  | O => []
  | S fuel' =>
    match regex_exec text lastIndex with
    | None => []
    | Some (index, m) =>
      m :: match_all_from fuel' text (index + length m)
    end
  end.

Definition match_all (text : jsstring) : list jsstring :=
  match_all_from (S (length text)) text 0.

Record Token : Type := {
  original : jsstring;
  word : option jsstring;
  isFirstWord : bool;
  isLastWord : bool;
  afterColon : bool;
  posTag : option POS;
  grammaticalFunction : option POS
}.

(** [{ original: between, word: null }] *)
Definition separator (between : jsstring) : Token :=
  {| original := between; word := None; isFirstWord := false;
     isLastWord := false; afterColon := false; posTag := None;
     grammaticalFunction := None |}.

(** The tags of the word at [nlpIndex], and the next [nlpIndex]: the
    [try] block of [tokenize].  When the look-up of the term throws, both
    tags stay [null]; when [determineGrammaticalFunction] throws, [posTag]
    has been assigned already and [grammaticalFunction] stays [null]. *)
Definition tag_word (nlpTerms : list (option Term)) (nlpIndex : nat)
  (m : jsstring) : option POS * option POS * nat :=
  if nlpIndex <? length nlpTerms then
    match nth_error nlpTerms nlpIndex with
    | Some (Some term) =>
      let posTag := getPOSTag term in
      if determineGrammaticalFunction_throws m term posTag
      then (posTag, None, S nlpIndex)
      else (posTag, determineGrammaticalFunction m term posTag, S nlpIndex)
    | _ => (None, None, S nlpIndex)
    end
  else (None, None, nlpIndex).

(** The [while ((match = regex.exec(text)) !== null)] loop of [tokenize]
    followed by the push of the remaining text.  Each round moves
    [lastIndex] forward, so [S (length text)] rounds are enough. *)
Fixpoint tokenize_loop (fuel : nat) (nlpTerms : list (option Term))
  (text : jsstring) (totalWords : nat)
  (lastIndex wordIndex nlpIndex : nat) (previousWasColon : bool)
  : list Token :=
  match fuel with
  | O => []
  | S fuel' =>
    match regex_exec text lastIndex with
    | None =>
      if lastIndex <? length text
      then [separator (substring text lastIndex (length text))]
      else []
    | Some (index, m) =>
      let between := substring text lastIndex index in
      let gap := lastIndex <? index in
      let previousWasColon' :=
        if gap && includes_char between COLON then true
        else previousWasColon in
      let '(tag, gf, nlpIndex') := tag_word nlpTerms nlpIndex m in
      (if gap then [separator between] else []) ++
      {| original := m; word := Some m;
         isFirstWord := wordIndex =? 0;
         isLastWord := (Z.of_nat wordIndex =? Z.of_nat totalWords - 1)%Z;
         afterColon := previousWasColon';
         posTag := tag;
         grammaticalFunction := gf |} ::
      tokenize_loop fuel' nlpTerms text totalWords
        (index + length m) (S wordIndex) nlpIndex' false
    end
  end.

Definition tokenize (nlp : option Tagger) (text : jsstring) : list Token :=
  let totalWords := length (match_all text) in
  let nlpTerms := match nlp with Some tagger => tagger text | None => [] end in
  tokenize_loop (S (length text)) nlpTerms text totalWords 0 0 0 false.

(** ** Style rule engine *)

Definition applyPrepositionRules (word lowerWord style : jsstring)
  : jsstring :=
  let length := length word in
  if streq style AMA || streq style AP || streq style APA then
    if length <=? 3 then lowerWord else capitalize word
  else if streq style Bluebook || streq style Chicago
          || streq style Wikipedia then
    if length <=? 4 then lowerWord else capitalize word
  else if streq style MLA then lowerWord
  else if streq style NewYorkTimes then
    if has nytLowercaseWords lowerWord then lowerWord
    else if has nytCapitalizeWords lowerWord then capitalize word
    else if 4 <=? length then capitalize word else lowerWord
  else capitalize word.

Definition applyNLPAwareRules (word lowerWord : jsstring)
  (grammaticalFunction : POS) (posTag : option POS) (style : jsstring)
  : option jsstring :=
  match grammaticalFunction with
  | verb | noun | adjective | adverb | pronoun => Some (capitalize word)
  | article => Some lowerWord
  | infinitive =>
    Some (if streq style AP then capitalize word else lowerWord)
  | conjunction =>
    if has coordinatingConjunctions lowerWord then
      if streq style Chicago && has (words ["yet"; "so"]%string) lowerWord
      then Some (capitalize word)
      else if streq style NewYorkTimes
              && has (words ["so"; "nor"]%string) lowerWord
      then Some (capitalize word)
      else Some lowerWord
    else if has subordinatingConjunctions lowerWord then
      if has [AMA; Bluebook; Chicago; MLA; Wikipedia] style then
        if streq style Chicago && streq lowerWord (str "as")
        then Some lowerWord
        else Some (capitalize word)
      else if has [AP; APA; NewYorkTimes] style && (length word <=? 3)
      then Some lowerWord
      else Some (capitalize word)
    else None
  | preposition => Some (applyPrepositionRules word lowerWord style)
  end.

Definition applyAMARules (word lowerWord : jsstring) : jsstring :=
  if has articles lowerWord then lowerWord
  else if has coordinatingConjunctions lowerWord then lowerWord
  else if isPreposition lowerWord && (length word <=? 3) then lowerWord
  else if streq lowerWord (str "to") then lowerWord
  else capitalize word.

Definition applyAPRules (word lowerWord : jsstring) : jsstring :=
  if 4 <=? length word then capitalize word
  else if has articles lowerWord then lowerWord
  else if has coordinatingConjunctions lowerWord && (length word <=? 3)
  then lowerWord
  else if has subordinatingConjunctions lowerWord && (length word <=? 3)
  then lowerWord
  else if isPreposition lowerWord && (length word <=? 3)
          && negb (streq lowerWord (str "to"))
  then lowerWord
  else capitalize word.

Definition applyAPARules (word lowerWord : jsstring) : jsstring :=
  if 4 <=? length word then capitalize word
  else if has articles lowerWord then lowerWord
  else if has coordinatingConjunctions lowerWord then lowerWord
  else if has subordinatingConjunctions lowerWord && (length word <=? 3)
  then lowerWord
  else if isPreposition lowerWord && (length word <=? 3) then lowerWord
  else capitalize word.

Definition applyBluebookRules (word lowerWord : jsstring) : jsstring :=
  if has articles lowerWord then lowerWord
  else if has coordinatingConjunctions lowerWord then lowerWord
  else if isPreposition lowerWord && (length word <=? 4) then lowerWord
  else capitalize word.

Definition applyChicagoRules (word lowerWord : jsstring) : jsstring :=
  if has articles lowerWord then lowerWord
  else if has (words ["and"; "but"; "for"; "nor"; "or"]%string) lowerWord
  then lowerWord
  else if streq lowerWord (str "as") then lowerWord
  else if streq lowerWord (str "to") then lowerWord
  else if isPreposition lowerWord && (length word <=? 4) then lowerWord
  else capitalize word.

Definition applyMLARules (word lowerWord : jsstring) : jsstring :=
  if has articles lowerWord then lowerWord
  else if has coordinatingConjunctions lowerWord then lowerWord
  else if isPreposition lowerWord then lowerWord
  else if streq lowerWord (str "to") then lowerWord
  else capitalize word.

Definition applyNYTRules (word lowerWord : jsstring) : jsstring :=
  if 4 <=? length word then capitalize word
  else if has nytCapitalizeWords lowerWord then capitalize word
  else if has nytLowercaseWords lowerWord then lowerWord
  else if streq lowerWord (str "v.") || streq lowerWord (str "vs.")
  then lowerWord
  else capitalize word.

Definition applyWikipediaRules (word lowerWord : jsstring) : jsstring :=
  if has articles lowerWord then lowerWord
  else if has coordinatingConjunctions lowerWord then lowerWord
  else if isPreposition lowerWord && (length word <=? 4) then lowerWord
  else if streq lowerWord (str "to") then lowerWord
  else capitalize word.

(** [word.split('-')] and [parts.join('-')]. *)
Fixpoint split_on (sep : code_unit) (s : jsstring) : list jsstring :=
  match s with
  | [] => [[]]
  | c :: r =>
    if N.eqb c sep then [] :: split_on sep r
    else match split_on sep r with
         | p :: ps => (c :: p) :: ps
         | [] => [[c]]
         end
  end.

Fixpoint join (sep : jsstring) (parts : list jsstring) : jsstring :=
  match parts with
  | [] => []
  | [p] => p
  | p :: ps => p ++ sep ++ join sep ps
  end.

Fixpoint mapi_from {A B : Type} (i : nat) (f : A -> nat -> B) (l : list A)
  : list B :=
  match l with
  | [] => []
  | x :: r => f x i :: mapi_from (S i) f r
  end.

Definition handleHyphenatedWord (word : jsstring) (isFirst isLast : bool)
  (style : jsstring) : jsstring :=
  let parts := split_on HYPHEN word in
  let capitalizedParts :=
    mapi_from 0 (fun part index =>
      let lowerPart := toLowerCase part in
      if (index =? 0) && isFirst then capitalize part
      else if streq style AMA then capitalize part
      else if streq style Chicago then
        if index =? 0 then capitalize part
        else if has articles lowerPart then lowerPart
        else if has coordinatingConjunctions lowerPart then lowerPart
        else if isPreposition lowerPart then lowerPart
        else capitalize part
      else if streq style APA then
        if index =? 0 then capitalize part else capitalize part
      else if streq style MLA then
        if has articles lowerPart then lowerPart
        else if has coordinatingConjunctions lowerPart then lowerPart
        else if isPreposition lowerPart then lowerPart
        else capitalize part
      else capitalize part) parts in
  join [HYPHEN] capitalizedParts.

(** The [switch (style)] at the end of [applyStyleRules]. *)
Definition applyStaticRules (word lowerWord style : jsstring) : jsstring :=
  if streq style AMA then applyAMARules word lowerWord
  else if streq style AP then applyAPRules word lowerWord
  else if streq style APA then applyAPARules word lowerWord
  else if streq style Bluebook then applyBluebookRules word lowerWord
  else if streq style Chicago then applyChicagoRules word lowerWord
  else if streq style MLA then applyMLARules word lowerWord
  else if streq style NewYorkTimes then applyNYTRules word lowerWord
  else if streq style Wikipedia then applyWikipediaRules word lowerWord
  else capitalize word.

(** [applyStyleRules] after its test for a hyphen in [word]. *)
Definition applyPlainWordRules (word lowerWord : jsstring)
  (isFirst isLast afterColon : bool) (style : jsstring)
  (grammaticalFunction posTag : option POS) : jsstring :=
  if isFirst then capitalize word
  else
    let capitalizeLastWord := negb (has [AMA; APA; Bluebook] style) in
    if isLast && capitalizeLastWord then capitalize word
    else if afterColon && streq style APA then capitalize word
    else
      let nlpResult :=
        match grammaticalFunction with
        | Some gf => applyNLPAwareRules word lowerWord gf posTag style
        | None => None
        end in
      match nlpResult with
      | Some r => r
      | None => applyStaticRules word lowerWord style
      end.

Definition applyStyleRules (word lowerWord : jsstring)
  (isFirst isLast afterColon : bool) (style : jsstring)
  (grammaticalFunction posTag : option POS) : jsstring :=
  if includes_char word HYPHEN then
    handleHyphenatedWord word isFirst isLast style
  else
    applyPlainWordRules word lowerWord isFirst isLast afterColon style
      grammaticalFunction posTag.

(** The body of the [for] loop of [toTitleCase]: what is pushed on
    [result] for one token.  [!token.word] holds for [null] and for the
    empty string. *)
Definition convertToken (style : jsstring) (token : Token) : jsstring :=
  match word token with
  | None | Some [] => original token
  | Some word =>
    applyStyleRules word (toLowerCase word) (isFirstWord token)
      (isLastWord token) (afterColon token) style
      (grammaticalFunction token) (posTag token)
  end.

Definition toTitleCase (nlp : option Tagger) (text style : jsstring)
  : jsstring :=
  concat (map (convertToken style) (tokenize nlp text)).

(** ** Vocabulary of the statements and proofs *)

(** The kind and text of each token. *)
Definition token_texts (toks : list Token) : list (bool * jsstring) :=
  map (fun t => (match word t with Some _ => true | None => false end,
                 original t)) toks.

(** Case analysis on every comparison of code units in the goal,
    innermost first. *)
Ltac no_branch t :=
  lazymatch t with
  | context [if _ then _ else _] => fail
  | _ => idtac
  end.

Ltac unit_cases :=
  repeat (match goal with
          | |- context [N.leb ?a ?b] =>
            no_branch a; no_branch b; destruct (N.leb_spec a b)
          | |- context [N.ltb ?a ?b] =>
            no_branch a; no_branch b; destruct (N.ltb_spec a b)
          | |- context [N.eqb ?a ?b] =>
            no_branch a; no_branch b; destruct (N.eqb_spec a b)
          end; cbn [andb orb negb]; cbv iota);
  try reflexivity; try discriminate; try lia.

(** A text over the Basic Latin block. *)
Definition ascii_string (s : jsstring) : Prop := forallb is_ascii s = true.

(** [token.word] is not [null]. *)
Definition is_word_token (t : Token) : bool :=
  match word t with Some _ => true | None => false end.

Definition count_words (toks : list Token) : nat :=
  length (filter is_word_token toks).

(** A word token is a non-empty run of word characters, a separator a
    non-empty run of boundary characters. *)
Definition well_formed_token (t : Token) : Prop :=
  match word t with
  | Some w => original t = w /\ w <> [] /\ forallb is_word_char w = true
  | None => original t <> [] /\ forallb is_boundary (original t) = true
  end.

(** Words and separators alternate: no two neighbours are of one kind, so
    the runs are maximal. *)
Fixpoint alternating (toks : list Token) : Prop :=
  match toks with
  | [] => True
  | t1 :: r =>
    match r with
    | [] => True
    | t2 :: _ => is_word_token t1 <> is_word_token t2
    end /\ alternating r
  end.

(** The flags of the word tokens, counting words from [k]. *)
Fixpoint flags_from (k T : nat) (toks : list Token) : Prop :=
  match toks with
  | [] => True
  | t :: r =>
    if is_word_token t then
      (isFirstWord t = (k =? 0) /\
       isLastWord t = (Z.of_nat k =? Z.of_nat T - 1)%Z) /\
      flags_from (S k) T r
    else flags_from k T r
  end.

(** A token that carries no tag. *)
Definition untagged (t : Token) : Prop :=
  grammaticalFunction t = None /\ posTag t = None.

(** The token with its text in lower case. *)
Definition lower_token (t : Token) : Token :=
  {| original := toLowerCase (original t);
     word := option_map toLowerCase (word t);
     isFirstWord := isFirstWord t;
     isLastWord := isLastWord t;
     afterColon := afterColon t;
     posTag := posTag t;
     grammaticalFunction := grammaticalFunction t |}.

(** Case analysis on the tests of the rule functions. *)
Ltac branch_cases :=
  repeat match goal with
         | |- context [if ?b then _ else _] => destruct b
         end.

(** Equal up to letter casing, character for character. *)
Definition same_up_to_case (a b : jsstring) : Prop :=
  toLowerCase a = toLowerCase b /\ length a = length b.

(** The three facts the proofs below need of every token of a Basic Latin
    text tokenized without a tagger. *)
Definition plain_token (t : Token) : Prop :=
  well_formed_token t /\ untagged t /\ ascii_string (original t).

(** The texts of the separators, in order. *)
Definition separators (toks : list Token) : list jsstring :=
  map original (filter (fun t => negb (is_word_token t)) toks).

(** The word token pushed by [tokenize] when no tagger is loaded. *)
Definition word_token (w : jsstring) (first last : bool) : Token :=
  {| original := w; word := Some w; isFirstWord := first;
     isLastWord := last; afterColon := false; posTag := None;
     grammaticalFunction := None |}.

Definition state_of_the_art : jsstring := str "state-of-the-art".

(** A piece of the output stands for a token: a separator verbatim, a word
    up to letter casing and with as many characters. *)
Definition piece_matches (t : Token) (p : jsstring) : Prop :=
  match word t with
  | None => p = original t
  | Some w => same_up_to_case p w
  end.

(** The round-trip property: the tokens give the text back, the output is
    made of one matching piece per token, and tokenizing the output gives
    the same sequence of words and separators with the same separators. *)
Definition round_trip_structure (text style : jsstring) : Prop :=
  let toks := tokenize None text in
  let out := toTitleCase None text style in
  concat (map original toks) = text /\
  (exists pieces, out = concat pieces /\ Forall2 piece_matches toks pieces) /\
  map is_word_token (tokenize None out) = map is_word_token toks /\
  separators (tokenize None out) = separators toks.

(** [convert(convert(s, style), style) == convert(s, style)]. *)
Definition same_style_fixed_point (text style : jsstring) : Prop :=
  toTitleCase None (toTitleCase None text style) style
  = toTitleCase None text style.

(** Two texts that are equal after lower-casing convert to the same
    output. *)
Definition case_insensitive (a b style : jsstring) : Prop :=
  toLowerCase a = toLowerCase b ->
  toTitleCase None a style = toTitleCase None b style.

(** A term with no tag, and a tagger for "run over it" that tags "over"
    as an adverb. *)
Definition bare_term : Term :=
  {| hasVerb := false; hasNoun := false; hasAdjective := false;
     hasAdverb := false; hasPreposition := false; hasConjunction := false;
     hasArticle := false; hasPronoun := false; hasPhrasalVerb := false;
     hasAcronym := false; nextHasVerb := false;
             nextThrows := false |}.

Definition run_over_it_tagger : Tagger :=
  fun _ =>
    [Some {| hasVerb := true; hasNoun := false; hasAdjective := false;
             hasAdverb := false; hasPreposition := false;
             hasConjunction := false; hasArticle := false;
             hasPronoun := false; hasPhrasalVerb := false;
             hasAcronym := false; nextHasVerb := false;
             nextThrows := false |};
     Some {| hasVerb := false; hasNoun := false; hasAdjective := false;
             hasAdverb := true; hasPreposition := false;
             hasConjunction := false; hasArticle := false;
             hasPronoun := false; hasPhrasalVerb := false;
             hasAcronym := false; nextHasVerb := false;
             nextThrows := false |};
     Some bare_term].

(** The tags the tokenizer gives the word [m] when it is the [k]-th word
    of the text, counting from 0: none when there is no [k]-th term or its
    look-up throws; else the tag of the [k]-th term, with the grammatical
    function computed from it, or with none when that computation
    throws. *)
Definition tags_of_word (nlpTerms : list (option Term)) (k : nat)
  (m : jsstring) : option POS * option POS :=
  match nth_error nlpTerms k with
  | Some (Some term) =>
    (getPOSTag term,
     if determineGrammaticalFunction_throws m term (getPOSTag term)
     then None
     else determineGrammaticalFunction m term (getPOSTag term))
  | _ => (None, None)
  end.

(** The tags of the word tokens, counting words from [k]. *)
Fixpoint tags_from (nlpTerms : list (option Term)) (k : nat)
  (toks : list Token) : Prop :=
  match toks with
  | [] => True
  | t :: r =>
    if is_word_token t then
      (posTag t, grammaticalFunction t)
      = tags_of_word nlpTerms k (original t) /\
      tags_from nlpTerms (S k) r
    else tags_from nlpTerms k r
  end.

(** The grammatical functions that [applyNLPAwareRules] always
    capitalizes. *)
Definition content_function (g : POS) : bool :=
  match g with
  | verb | noun | adjective | adverb | pronoun => true
  | _ => false
  end.

(** [applyStyleRules] after its tests on the position of the word: the
    verdict of [applyNLPAwareRules] when there is a grammatical function
    and a verdict, the [switch] on the style otherwise. *)
Definition applyMidSentenceRules (word lowerWord style : jsstring)
  (grammaticalFunction posTag : option POS) : jsstring :=
  match
    match grammaticalFunction with
    | Some gf => applyNLPAwareRules word lowerWord gf posTag style
    | None => None
    end
  with
  | Some r => r
  | None => applyStaticRules word lowerWord style
  end.

(** A word token with its tags. *)
Definition tagged_token (w : jsstring) (first last : bool)
  (tag gf : option POS) : Token :=
  {| original := w; word := Some w; isFirstWord := first;
     isLastWord := last; afterColon := false; posTag := tag;
     grammaticalFunction := gf |}.

(** A tagger for "time to go home": a noun, "to" before a verb, a verb, a
    noun. *)
Definition time_to_go_home_tagger : Tagger :=
  fun _ =>
    [Some {| hasVerb := false; hasNoun := true; hasAdjective := false;
             hasAdverb := false; hasPreposition := false;
             hasConjunction := false; hasArticle := false;
             hasPronoun := false; hasPhrasalVerb := false;
             hasAcronym := false; nextHasVerb := false;
             nextThrows := false |};
     Some {| hasVerb := false; hasNoun := false; hasAdjective := false;
             hasAdverb := false; hasPreposition := false;
             hasConjunction := false; hasArticle := false;
             hasPronoun := false; hasPhrasalVerb := false;
             hasAcronym := false; nextHasVerb := true;
             nextThrows := false |};
     Some {| hasVerb := true; hasNoun := false; hasAdjective := false;
             hasAdverb := false; hasPreposition := false;
             hasConjunction := false; hasArticle := false;
             hasPronoun := false; hasPhrasalVerb := false;
             hasAcronym := false; nextHasVerb := false;
             nextThrows := false |};
     Some {| hasVerb := false; hasNoun := true; hasAdjective := false;
             hasAdverb := false; hasPreposition := false;
             hasConjunction := false; hasArticle := false;
             hasPronoun := false; hasPhrasalVerb := false;
             hasAcronym := false; nextHasVerb := false;
             nextThrows := false |}].

(** ** Smartify quotes ([SmartifyQuotesModule]) *)

Definition DQUOTE : code_unit := 34%N.
Definition SQUOTE : code_unit := 39%N.
Definition LDQUO : code_unit := 8220%N.
Definition RDQUO : code_unit := 8221%N.
Definition LSQUO : code_unit := 8216%N.
Definition RSQUO : code_unit := 8217%N.
Definition BACKTICK : code_unit := 96%N.

(** The class [\S]. *)
Definition is_non_space (c : code_unit) : bool := negb (is_white_space c).

(** The class [\w]. *)
Definition is_word_class (c : code_unit) : bool :=
  (((48 <=? c) && (c <=? 57)) || ((65 <=? c) && (c <=? 90)) || (c =? 95) ||
   ((97 <=? c) && (c <=? 122)))%N.

(** The one-character alternatives of the group [(^|\s|--|\u2014|\[|\()]. *)
Definition is_opener (c : code_unit) : bool :=
  (is_white_space c || (c =? EM_DASH) || (c =? 91) || (c =? 40))%N.

(** [s.replace(/(^|\s|--|\u2014|\[|\()q(\S)/g, '$1r$2')] for a quote character
    [q] and its replacement [r]; [start] tells whether the scan is at the
    start of the string, where [^] matches.  A match consumes the
    character after the quote. *)
Fixpoint replace_opening (q r : code_unit) (start : bool) (s : jsstring)
  : jsstring :=
  match s with
  | [] => []
  | a :: s1 =>
    match s1 with
    | [] => [a]
    | b :: s2 =>
      if start && N.eqb a q && is_non_space b then
        r :: b :: replace_opening q r false s2
      else
        match s2 with
        | [] => a :: replace_opening q r false s1
        | c :: s3 =>
          if is_opener a && N.eqb b q && is_non_space c then
            a :: r :: c :: replace_opening q r false s3
          else
            match s3 with
            | [] => a :: replace_opening q r false s1
            | d :: s4 =>
              if N.eqb a HYPHEN && N.eqb b HYPHEN && N.eqb c q
                 && is_non_space d then
                a :: b :: r :: d :: replace_opening q r false s4
              else a :: replace_opening q r false s1
            end
        end
    end
  end.

(** [s.replace(/(\S)q/g, '$1\u201d')] for the double quote [q]. *)
Fixpoint replace_closing (s : jsstring) : jsstring :=
  match s with
  | [] => []
  | a :: s1 =>
    match s1 with
    | [] => [a]
    | b :: s2 =>
      if is_non_space a && N.eqb b DQUOTE then
        a :: RDQUO :: replace_closing s2
      else a :: replace_closing s1
    end
  end.

(** [s.replace(/(\w)'(\w)/g, '$1\u2019$2')]. *)
Fixpoint replace_apostrophe (s : jsstring) : jsstring :=
  match s with
  | [] => []
  | a :: s1 =>
    match s1 with
    | [] => [a]
    | b :: s2 =>
      match s2 with
      | [] => a :: replace_apostrophe s1
      | c :: s3 =>
        if is_word_class a && N.eqb b SQUOTE && is_word_class c then
          a :: RSQUO :: c :: replace_apostrophe s3
        else a :: replace_apostrophe s1
      end
    end
  end.

(** [s.replace(/'/g, '\u2019')]. *)
Definition replace_single (s : jsstring) : jsstring :=
  map (fun c => if N.eqb c SQUOTE then RSQUO else c) s.

Definition convertQuotesInText (text : jsstring) : jsstring :=
  replace_single
    (replace_opening SQUOTE LSQUO true
       (replace_apostrophe
          (replace_closing
             (replace_opening DQUOTE LDQUO true text)))).

Definition FENCE : jsstring := [BACKTICK; BACKTICK; BACKTICK].

Fixpoint starts_with (needle s : jsstring) : bool :=
  match needle, s with
  | [], _ => true
  | n :: needle', c :: s' => N.eqb n c && starts_with needle' s'
  | _ :: _, [] => false
  end.

(** The offset of the first occurrence of [needle] in [s]. *)
Fixpoint find_first (needle s : jsstring) : option nat :=
  if starts_with needle s then Some 0
  else match s with
       | [] => None
       | _ :: s' => option_map S (find_first needle s')
       end.

(** [codeBlockRegex.exec(text)] with [codeBlockRegex.lastIndex = lastIndex]
    for [/```[\s\S]*?```/g]: the first fence at or after [lastIndex] and,
    the quantifier being lazy, the first fence after it; no match when
    either is missing.  The result is [(match.index, match[0])]. *)
Definition codeBlock_exec (text : jsstring) (lastIndex : nat)
  : option (nat * jsstring) :=
  match find_first FENCE (skipn lastIndex text) with
  | None => None
  | Some a =>
    let index := lastIndex + a in
    match find_first FENCE (skipn (index + 3) text) with
    | None => None
    | Some b => Some (index, substring text index (index + 3 + b + 3))
    end
  end.

Record Part : Type := { part_text : jsstring; isCodeBlock : bool }.

(** The [while] loop of [processSmartQuotes] and the push of the remaining
    text; [part_text] is the field [text] of a part. *)
Fixpoint smartQuotes_parts (fuel : nat) (text : jsstring) (lastIndex : nat)
  : list Part :=
  match fuel with
  | O => []
  | S fuel' =>
    match codeBlock_exec text lastIndex with
    | None =>
      if lastIndex <? length text
      then [{| part_text := skipn lastIndex text; isCodeBlock := false |}]
      else []
    | Some (index, m) =>
      (if lastIndex <? index
       then [{| part_text := substring text lastIndex index;
                isCodeBlock := false |}]
       else []) ++
      {| part_text := m; isCodeBlock := true |} ::
      smartQuotes_parts fuel' text (index + length m)
    end
  end.

Definition convertPart (part : Part) : jsstring :=
  if isCodeBlock part then part_text part
  else convertQuotesInText (part_text part).

Definition processSmartQuotes (text : jsstring) : jsstring :=
  concat (map convertPart (smartQuotes_parts (S (length text)) text 0)).

(** [c'] stands where [c] stood: the same character, or a curly quote for
    a straight one. *)
Definition quote_change (c c' : code_unit) : Prop :=
  c' = c \/
  (c = DQUOTE /\ (c' = LDQUO \/ c' = RDQUO)) \/
  (c = SQUOTE /\ (c' = LSQUO \/ c' = RSQUO)).

(** [c'] is [c], or [r] in the place of the quote [q]. *)
Definition swap (q r c c' : code_unit) : Prop := c' = c \/ (c = q /\ c' = r).

(** ** Rich text toolbar ([RichTextFormattingModule]) *)

Definition HASH : code_unit := 35%N.
Definition SPACE : code_unit := 32%N.

(** [!/\s/.test(line[k])]: [line[k]] is [undefined] outside the line, and
    the test on [undefined] fails. *)
Definition is_space_at (line : jsstring) (k : nat) : bool :=
  match nth_error line k with
  | Some c => is_white_space c
  | None => false
  end.

(** [while (start > 0 && !/\s/.test(line[start - 1])) start--]. *)
Fixpoint word_start (line : jsstring) (start : nat) : nat :=
  match start with
  | O => O
  | S k => if is_space_at line k then start else word_start line k
  end.

(** [while (end < line.length && !/\s/.test(line[end])) end++]; the loop
    runs at most [line.length] times. *)
Fixpoint word_end (fuel : nat) (line : jsstring) (e : nat) : nat :=
  match fuel with
  | O => e
  | S fuel' =>
    if (e <? length line) && negb (is_space_at line e)
    then word_end fuel' line (S e)
    else e
  end.

(** [getWordAtCursor] on the line of the cursor and [cursor.ch]. *)
Definition getWordAtCursor (line : jsstring) (pos : nat) : jsstring :=
  substring line (word_start line pos) (word_end (length line) line pos).

(** The values of the heading select: ['body'] and ['h1'] to ['h6'];
    [heading n] stands for the value whose [parseInt(level.replace('h', ''))] is
    [n]. *)
Inductive HeadingLevel : Type :=
| body
| heading (n : nat).

(** The match of [/^(#{1,6})\s/] on a line: the number of hashes, when the
    line starts with one to six hashes followed by a white space
    character. *)
Definition heading_marker (line : jsstring) : option nat :=
  let hashes := length (take_while (N.eqb HASH) line) in
  if (1 <=? hashes) && (hashes <=? 6) && is_space_at line hashes
  then Some hashes
  else None.

(** [line.replace(/^#{1,6}\s/, '')]. *)
Definition removeHeadingMarker (line : jsstring) : jsstring :=
  match heading_marker line with
  | Some hashes => skipn (S hashes) line
  | None => line
  end.

(** The line that [applyHeading] sets at the cursor. *)
Definition applyHeading (line : jsstring) (level : HeadingLevel)
  : jsstring :=
  let cleanLine := removeHeadingMarker line in
  match level with
  | body => cleanLine
  | heading headingLevel =>
    repeat HASH headingLevel ++ [SPACE] ++ cleanLine
  end.

(** The value that [updateToolbarContext] gives the heading select for the
    line of the cursor. *)
Definition headingSelectValue (line : jsstring) : HeadingLevel :=
  match heading_marker line with
  | Some level => heading level
  | None => body
  end.

(** The quote [q] occurs in [s] as its last character at most. *)
Definition quote_only_last (q : code_unit) (s : jsstring) : Prop :=
  forall pre post, s = pre ++ q :: post -> post = [].

(** A tagger for "go to school": a verb, "to" as a preposition, a
    noun. *)
Definition go_to_school_tagger : Tagger :=
  fun _ =>
    [Some {| hasVerb := true; hasNoun := false; hasAdjective := false;
             hasAdverb := false; hasPreposition := false;
             hasConjunction := false; hasArticle := false;
             hasPronoun := false; hasPhrasalVerb := false;
             hasAcronym := false; nextHasVerb := false;
             nextThrows := false |};
     Some {| hasVerb := false; hasNoun := false; hasAdjective := false;
             hasAdverb := false; hasPreposition := true;
             hasConjunction := false; hasArticle := false;
             hasPronoun := false; hasPhrasalVerb := false;
             hasAcronym := false; nextHasVerb := false;
             nextThrows := false |};
     Some {| hasVerb := false; hasNoun := true; hasAdjective := false;
             hasAdverb := false; hasPreposition := false;
             hasConjunction := false; hasArticle := false;
             hasPronoun := false; hasPhrasalVerb := false;
             hasAcronym := false; nextHasVerb := false;
             nextThrows := false |}].

(** A tagger for "to be" whose terms have no [next] method: "to" tagged
    as a conjunction, a verb. *)
Definition to_be_tagger : Tagger :=
  fun _ =>
    [Some {| hasVerb := false; hasNoun := false; hasAdjective := false;
             hasAdverb := false; hasPreposition := false;
             hasConjunction := true; hasArticle := false;
             hasPronoun := false; hasPhrasalVerb := false;
             hasAcronym := false; nextHasVerb := false;
             nextThrows := true |};
     Some {| hasVerb := true; hasNoun := false; hasAdjective := false;
             hasAdverb := false; hasPreposition := false;
             hasConjunction := false; hasArticle := false;
             hasPronoun := false; hasPhrasalVerb := false;
             hasAcronym := false; nextHasVerb := false;
             nextThrows := true |}].

(** ** First checks on concrete inputs *)

Example tokenize_empty : tokenize None [] = [].
Proof. reflexivity. Qed.

Example tokenize_spaces :
  token_texts (tokenize None (str "  ")) = [(false, str "  ")].
Proof. vm_compute. reflexivity. Qed.

Example toTitleCase_war_and_peace :
  toTitleCase None (str "war and peace") Chicago = str "War and Peace".
Proof. vm_compute. reflexivity. Qed.

Example toTitleCase_rise_of_the_machines :
  toTitleCase None (str "rise of the machines") Chicago
  = str "Rise of the Machines".
Proof. vm_compute. reflexivity. Qed.

Example toTitleCase_lord_of_the_rings :
  toTitleCase None (str "the lord of the rings") MLA
  = str "The Lord of the Rings".
Proof. vm_compute. reflexivity. Qed.

Example toTitleCase_untagged_over :
  toTitleCase None (str "run over it") Chicago = str "Run over It".
Proof. vm_compute. reflexivity. Qed.

Example toTitleCase_adverb_over :
  toTitleCase (Some run_over_it_tagger) (str "run over it") Chicago
  = str "Run Over It".
Proof. vm_compute. reflexivity. Qed.

Example tokenize_tags :
  map grammaticalFunction
    (tokenize (Some run_over_it_tagger) (str "run over it"))
  = [Some verb; None; Some adverb; None; None].
Proof. vm_compute. reflexivity. Qed.

Example handleHyphenatedWord_AMA :
  handleHyphenatedWord (str "state-of-the-art") true true AMA
  = str "State-Of-The-Art".
Proof. vm_compute. reflexivity. Qed.

(** ** Strings: equality, membership, case mapping *)

Lemma streq_eq (a b : jsstring) : streq a b = true <-> a = b.
Proof.
  revert b; induction a as [|x a IH]; intros [|y b]; simpl;
    try (split; [discriminate | discriminate]); [tauto|].
  rewrite andb_true_iff, N.eqb_eq, IH.
  split; [intros [-> ->]; reflexivity | intros H; inversion H; auto].
Qed.

Lemma streq_refl (a : jsstring) : streq a a = true.
Proof. apply streq_eq; reflexivity. Qed.

Lemma has_In (set : list jsstring) (x : jsstring) :
  has set x = true <-> In x set.
Proof.
  unfold has; rewrite existsb_exists; split.
  - intros (y & Hy & E). apply streq_eq in E. subst; assumption.
  - intros H; exists x; split; [assumption | apply streq_refl].
Qed.

Lemma includes_char_false (s : jsstring) (c : code_unit) :
  includes_char s c = false <-> ~ In c s.
Proof.
  unfold includes_char; split.
  - intros H Hin.
    assert (existsb (N.eqb c) s = true)
      by (apply existsb_exists; exists c; split; [assumption | apply N.eqb_refl]).
    congruence.
  - intros H. destruct (existsb (N.eqb c) s) eqn:E; [|reflexivity].
    apply existsb_exists in E. destruct E as (y & Hy & E).
    apply N.eqb_eq in E. subst. contradiction.
Qed.

Lemma length_toLowerCase (s : jsstring) :
  length (toLowerCase s) = length s.
Proof. apply length_map. Qed.

Lemma lower_unit_idem (c : code_unit) :
  lower_unit (lower_unit c) = lower_unit c.
Proof. unfold lower_unit, KELVIN. unit_cases. Qed.

Lemma toLowerCase_idem (s : jsstring) :
  toLowerCase (toLowerCase s) = toLowerCase s.
Proof.
  unfold toLowerCase. rewrite map_map.
  apply map_ext; intros; apply lower_unit_idem.
Qed.

Lemma toLowerCase_app (a b : jsstring) :
  toLowerCase (a ++ b) = toLowerCase a ++ toLowerCase b.
Proof. apply map_app. Qed.

Lemma toLowerCase_concat (l : list jsstring) :
  toLowerCase (concat l) = concat (map toLowerCase l).
Proof. apply concat_map. Qed.

Lemma is_boundary_lower (c : code_unit) :
  is_boundary (lower_unit c) = is_boundary c.
Proof.
  unfold is_boundary, is_white_space, lower_unit, KELVIN, HYPHEN, EM_DASH,
    EN_DASH.
  unit_cases.
Qed.

Lemma lower_unit_boundary (c : code_unit) :
  is_boundary c = true -> lower_unit c = c.
Proof.
  unfold is_boundary, is_white_space, lower_unit, KELVIN, HYPHEN, EM_DASH,
    EN_DASH.
  unit_cases.
Qed.

Lemma lower_unit_colon (c : code_unit) :
  N.eqb COLON (lower_unit c) = N.eqb COLON c.
Proof. unfold lower_unit, KELVIN, COLON. unit_cases. Qed.

Lemma lower_unit_hyphen (c : code_unit) :
  N.eqb HYPHEN (lower_unit c) = N.eqb HYPHEN c.
Proof. unfold lower_unit, KELVIN, HYPHEN. unit_cases. Qed.

Lemma lower_unit_ascii (c : code_unit) :
  is_ascii c = true -> is_ascii (lower_unit c) = true.
Proof. unfold is_ascii, lower_unit, KELVIN. unit_cases. Qed.

(** On the Basic Latin block upper-casing is one-to-one. *)
Lemma upper_unit_ascii (c : code_unit) :
  is_ascii c = true ->
  exists u, upper_unit c = [u] /\ is_ascii u = true /\
            lower_unit u = lower_unit c.
Proof.
  intros H. unfold upper_unit, SHARP_S.
  destruct ((97 <=? c) && (c <=? 122))%N eqn:E.
  - exists (c - 32)%N. split; [reflexivity|].
    apply andb_true_iff in E. destruct E as [E1 E2].
    apply N.leb_le in E1, E2.
    unfold is_ascii, lower_unit, KELVIN in *. apply N.ltb_lt in H.
    split; [apply N.ltb_lt; lia|].
    unit_cases.
  - unfold is_ascii in H. apply N.ltb_lt in H.
    destruct (N.eqb_spec c 223); [lia|].
    exists c. split; [reflexivity|]. split; [apply N.ltb_lt; lia | reflexivity].
Qed.

Lemma upper_lower_unit_ascii (c : code_unit) :
  is_ascii c = true -> upper_unit (lower_unit c) = upper_unit c.
Proof.
  unfold is_ascii, upper_unit, lower_unit, KELVIN, SHARP_S.
  intros H. apply N.ltb_lt in H.
  unit_cases; f_equal; lia.
Qed.

Lemma ascii_string_cons (c : code_unit) (s : jsstring) :
  ascii_string (c :: s) <-> is_ascii c = true /\ ascii_string s.
Proof. unfold ascii_string; simpl. apply andb_true_iff. Qed.

Lemma ascii_string_app (a b : jsstring) :
  ascii_string (a ++ b) <-> ascii_string a /\ ascii_string b.
Proof. unfold ascii_string. rewrite forallb_app. apply andb_true_iff. Qed.

Lemma ascii_toLowerCase (s : jsstring) :
  ascii_string s -> ascii_string (toLowerCase s).
Proof.
  unfold ascii_string; induction s as [|c s IH]; simpl; [auto|].
  rewrite !andb_true_iff. intros [H1 H2].
  split; [apply lower_unit_ascii; assumption | auto].
Qed.

Lemma capitalize_ascii (w : jsstring) :
  ascii_string w ->
  ascii_string (capitalize w) /\
  length (capitalize w) = length w /\
  toLowerCase (capitalize w) = toLowerCase w.
Proof.
  destruct w as [|c r]; [intros; repeat split; assumption|].
  intros H. apply ascii_string_cons in H. destruct H as [Hc Hr].
  destruct (upper_unit_ascii c Hc) as (u & Hu & Ha & Hl).
  unfold capitalize, toUpperCase. simpl. rewrite Hu. simpl.
  repeat split.
  - apply ascii_string_cons. split; [assumption|].
    apply ascii_toLowerCase; assumption.
  - rewrite length_toLowerCase; reflexivity.
  - rewrite Hl. fold (toLowerCase (toLowerCase r)).
    rewrite toLowerCase_idem. reflexivity.
Qed.

Lemma capitalize_toLowerCase (w : jsstring) :
  ascii_string w -> capitalize (toLowerCase w) = capitalize w.
Proof.
  destruct w as [|c r]; [reflexivity|].
  intros H. apply ascii_string_cons in H. destruct H as [Hc _].
  unfold capitalize, toUpperCase. simpl.
  rewrite upper_lower_unit_ascii by assumption.
  fold (toLowerCase (toLowerCase r)). rewrite toLowerCase_idem. reflexivity.
Qed.

(** ** The regular expression *)

Lemma take_while_forallb (p : code_unit -> bool) (s : jsstring) :
  forallb p (take_while p s) = true.
Proof.
  induction s as [|c s IH]; simpl; [reflexivity|].
  destruct (p c) eqn:E; simpl; [rewrite E; assumption | reflexivity].
Qed.

Lemma take_while_firstn (p : code_unit -> bool) (s : jsstring) :
  firstn (length (take_while p s)) s = take_while p s.
Proof.
  induction s as [|c s IH]; simpl; [reflexivity|].
  destruct (p c); simpl; [rewrite IH|]; reflexivity.
Qed.

Lemma take_while_skipn (p : code_unit -> bool) (s : jsstring) :
  take_while p s ++ skipn (length (take_while p s)) s = s.
Proof.
  rewrite <- take_while_firstn at 1. apply firstn_skipn.
Qed.

Lemma take_while_stops (p : code_unit -> bool) (s : jsstring) :
  take_while (fun c => negb (p c)) (skipn (length (take_while p s)) s) = [] ->
  skipn (length (take_while p s)) s = [].
Proof.
  induction s as [|c s IH]; simpl; [reflexivity|].
  destruct (p c) eqn:E; simpl; [assumption|].
  rewrite E; simpl. discriminate.
Qed.

Lemma take_while_map (p : code_unit -> bool) (f : code_unit -> code_unit)
  (s : jsstring) :
  (forall c, p (f c) = p c) ->
  take_while p (map f s) = map f (take_while p s).
Proof.
  intros H. induction s as [|c s IH]; simpl; [reflexivity|].
  rewrite H. destruct (p c); simpl; [rewrite IH|]; reflexivity.
Qed.

(** A match starts after a run [gap] of boundary characters and is a
    non-empty run of word characters. *)
Lemma regex_exec_Some (text : jsstring) (i idx : nat) (m : jsstring) :
  regex_exec text i = Some (idx, m) ->
  exists gap,
    idx = i + length gap /\
    substring text i idx = gap /\
    forallb is_boundary gap = true /\
    m <> [] /\
    forallb is_word_char m = true /\
    skipn i text = gap ++ m ++ skipn (idx + length m) text.
Proof.
  unfold regex_exec.
  set (rest := skipn i text).
  set (gap := take_while is_boundary rest).
  destruct (take_while is_word_char (skipn (length gap) rest)) as [|c m']
    eqn:E; [discriminate|].
  intros H. injection H as <- <-.
  exists gap. split; [reflexivity|].
  split.
  { unfold substring. replace (i + length gap - i) with (length gap) by lia.
    apply take_while_firstn. }
  split; [apply take_while_forallb|].
  split; [discriminate|].
  split; [rewrite <- E; apply take_while_forallb|].
  replace (i + length gap + length (c :: m'))
    with (length (c :: m') + (length gap + i)) by lia.
  rewrite <- 2 skipn_skipn. fold rest.
  rewrite <- E.
  rewrite take_while_skipn. unfold gap. rewrite take_while_skipn.
  reflexivity.
Qed.

Lemma regex_exec_None (text : jsstring) (i : nat) :
  regex_exec text i = None -> forallb is_boundary (skipn i text) = true.
Proof.
  unfold regex_exec.
  set (rest := skipn i text).
  destruct (take_while is_word_char
              (skipn (length (take_while is_boundary rest)) rest)) eqn:E;
    [|discriminate].
  intros _. apply take_while_stops in E.
  rewrite <- (take_while_skipn is_boundary rest), E, app_nil_r.
  apply take_while_forallb.
Qed.

Lemma regex_exec_bound (text : jsstring) (i idx : nat) (m : jsstring) :
  regex_exec text i = Some (idx, m) -> i <= length text ->
  i <= idx /\ 1 <= length m /\ idx + length m <= length text.
Proof.
  intros H Hi. apply regex_exec_Some in H.
  destruct H as (gap & -> & _ & _ & Hm & _ & Hs).
  apply (f_equal (@length _)) in Hs.
  rewrite length_skipn, !length_app, length_skipn in Hs.
  destruct m; [congruence|]. simpl in *. lia.
Qed.

Lemma regex_exec_lower (text : jsstring) (i : nat) :
  regex_exec (toLowerCase text) i =
  match regex_exec text i with
  | Some (idx, m) => Some (idx, toLowerCase m)
  | None => None
  end.
Proof.
  unfold regex_exec, toLowerCase.
  rewrite skipn_map, (take_while_map is_boundary) by apply is_boundary_lower.
  rewrite length_map, skipn_map, (take_while_map is_word_char)
    by (intros; unfold is_word_char; rewrite is_boundary_lower; reflexivity).
  destruct (take_while is_word_char _); reflexivity.
Qed.

(** ** The tokenizer *)

Lemma gap_original (text : jsstring) (i idx : nat) :
  i <= idx ->
  concat (map (@original)
            (if i <? idx then [separator (substring text i idx)] else []))
  = substring text i idx.
Proof.
  intros H. destruct (Nat.ltb_spec i idx); simpl.
  - apply app_nil_r.
  - unfold substring. replace (idx - i) with 0 by lia. reflexivity.
Qed.

Lemma tokenize_loop_concat (fuel : nat) (terms : list (option Term))
  (text : jsstring) (T i k n : nat) (pc : bool) :
  i <= length text -> length text - i < fuel ->
  concat (map (@original) (tokenize_loop fuel terms text T i k n pc))
  = skipn i text.
Proof.
  revert i k n pc. induction fuel as [|fuel IH]; intros i k n pc Hi Hf;
    [lia|].
  simpl. destruct (regex_exec text i) as [[idx m]|] eqn:E.
  - destruct (tag_word terms n m) as [[tag gf] n'].
    destruct (regex_exec_bound _ _ _ _ E Hi) as (H1 & H2 & H3).
    apply regex_exec_Some in E.
    destruct E as (gap & Hidx & Hsub & _ & _ & _ & Hs).
    rewrite map_app, concat_app, gap_original by assumption.
    simpl. rewrite IH by lia. rewrite Hsub. symmetry; assumption.
  - destruct (Nat.ltb_spec i (length text)); simpl.
    + rewrite app_nil_r. unfold substring.
      apply firstn_all2. rewrite length_skipn. lia.
    + symmetry. apply skipn_all2. lia.
Qed.

Lemma tokenize_loop_well_formed (fuel : nat) (terms : list (option Term))
  (text : jsstring) (T i k n : nat) (pc : bool) :
  Forall well_formed_token (tokenize_loop fuel terms text T i k n pc).
Proof.
  revert i k n pc. induction fuel as [|fuel IH]; intros i k n pc;
    [constructor|].
  simpl. destruct (regex_exec text i) as [[idx m]|] eqn:E.
  - destruct (tag_word terms n m) as [[tag gf] n'].
    apply regex_exec_Some in E.
    destruct E as (gap & Hidx & Hsub & Hg & Hm & Hw & _).
    apply Forall_app. split.
    + destruct (Nat.ltb_spec i idx); constructor; [|constructor].
      unfold well_formed_token; simpl. rewrite Hsub. split; [|assumption].
      intros ->. simpl in Hidx. lia.
    + constructor; [|apply IH].
      unfold well_formed_token; simpl. auto.
  - destruct (Nat.ltb_spec i (length text)); constructor; [|constructor].
    unfold well_formed_token; simpl. unfold substring.
    rewrite firstn_all2 by (rewrite length_skipn; lia).
    split; [|apply regex_exec_None; assumption].
    intros Hnil. apply (f_equal (@length _)) in Hnil.
    rewrite length_skipn in Hnil. simpl in Hnil. lia.
Qed.

Lemma take_while_rest (p : code_unit -> bool) (s : jsstring) :
  match skipn (length (take_while p s)) s with
  | [] => True
  | c :: _ => p c = false
  end.
Proof.
  induction s as [|c s IH]; simpl; [exact I|].
  destruct (p c) eqn:E; simpl; assumption.
Qed.

(** A match is maximal: it ends at the end of the text or before a
    boundary character. *)
Lemma regex_exec_after (text : jsstring) (i idx : nat) (m : jsstring) :
  regex_exec text i = Some (idx, m) ->
  match skipn (idx + length m) text with
  | [] => True
  | c :: _ => is_boundary c = true
  end.
Proof.
  unfold regex_exec.
  set (rest := skipn i text).
  set (gap := take_while is_boundary rest).
  destruct (take_while is_word_char (skipn (length gap) rest)) as [|c m']
    eqn:E; [discriminate|].
  intros H. injection H as <- <-.
  replace (i + length gap + length (c :: m'))
    with (length (c :: m') + (length gap + i)) by lia.
  rewrite <- 2 skipn_skipn. fold rest. rewrite <- E.
  pose proof (take_while_rest is_word_char (skipn (length gap) rest)) as H.
  destruct (skipn _ (skipn (length gap) rest)); [exact I|].
  unfold is_word_char in H. apply negb_false_iff in H. assumption.
Qed.

Lemma tokenize_loop_head (fuel : nat) (terms : list (option Term))
  (text : jsstring) (T i k n : nat) (pc : bool) :
  match skipn i text with
  | [] => True
  | c :: _ => is_boundary c = true
  end ->
  match tokenize_loop fuel terms text T i k n pc with
  | [] => True
  | t :: _ => is_word_token t = false
  end.
Proof.
  intros Hb. destruct fuel as [|fuel]; [exact I|].
  simpl. destruct (regex_exec text i) as [[idx m]|] eqn:E.
  - destruct (tag_word terms n m) as [[tag gf] n'].
    apply regex_exec_Some in E.
    destruct E as (gap & -> & _ & _ & Hm & Hw & Hs).
    destruct gap as [|g gap].
    + rewrite Hs in Hb. destruct m as [|c m]; [congruence|].
      simpl in Hb, Hw. apply andb_true_iff in Hw. destruct Hw as [Hw _].
      unfold is_word_char in Hw. rewrite Hb in Hw. discriminate Hw.
    + replace (i <? i + length (g :: gap)) with true
        by (symmetry; apply Nat.ltb_lt; simpl; lia).
      reflexivity.
  - destruct (i <? length text); [reflexivity | exact I].
Qed.

Lemma tokenize_loop_alternating (fuel : nat) (terms : list (option Term))
  (text : jsstring) (T i k n : nat) (pc : bool) :
  alternating (tokenize_loop fuel terms text T i k n pc).
Proof.
  revert i k n pc. induction fuel as [|fuel IH]; intros i k n pc;
    [exact I|].
  simpl. destruct (regex_exec text i) as [[idx m]|] eqn:E.
  - destruct (tag_word terms n m) as [[tag gf] n'].
    pose proof (tokenize_loop_head fuel terms text T (idx + length m)
                  (S k) n' false (regex_exec_after _ _ _ _ E)) as Hh.
    specialize (IH (idx + length m) (S k) n' false).
    destruct (tokenize_loop fuel terms text T (idx + length m) (S k) n' false)
      as [|t r].
    + destruct (i <? idx); cbn [app alternating is_word_token word];
        repeat split; discriminate.
    + destruct IH as [IH1 IH2].
      destruct (i <? idx); cbn [app alternating is_word_token word];
        fold (is_word_token t); rewrite Hh; rewrite Hh in IH1;
        repeat split; try discriminate; assumption.
  - destruct (i <? length text); simpl; auto.
Qed.

Lemma tokenize_loop_count (fuel : nat) (terms : list (option Term))
  (text : jsstring) (T i k n : nat) (pc : bool) :
  count_words (tokenize_loop fuel terms text T i k n pc)
  = length (match_all_from fuel text i).
Proof.
  revert i k n pc. induction fuel as [|fuel IH]; intros i k n pc;
    [reflexivity|].
  simpl. destruct (regex_exec text i) as [[idx m]|] eqn:E.
  - destruct (tag_word terms n m) as [[tag gf] n'].
    unfold count_words in *. rewrite filter_app, length_app. simpl.
    rewrite IH. destruct (i <? idx); reflexivity.
  - destruct (i <? length text); reflexivity.
Qed.

Lemma tokenize_loop_flags (fuel : nat) (terms : list (option Term))
  (text : jsstring) (T i k n : nat) (pc : bool) :
  flags_from k T (tokenize_loop fuel terms text T i k n pc).
Proof.
  revert i k n pc. induction fuel as [|fuel IH]; intros i k n pc;
    [exact I|].
  simpl. destruct (regex_exec text i) as [[idx m]|] eqn:E.
  - destruct (tag_word terms n m) as [[tag gf] n'].
    destruct (i <? idx); simpl; (split; [split; reflexivity | apply IH]).
  - destruct (i <? length text); exact I.
Qed.

Lemma flags_from_split (k T : nat) (pre post : list Token) (t : Token) :
  flags_from k T (pre ++ t :: post) -> is_word_token t = true ->
  isFirstWord t = (k + count_words pre =? 0) /\
  isLastWord t = (Z.of_nat (k + count_words pre) =? Z.of_nat T - 1)%Z.
Proof.
  revert k. induction pre as [|x pre IH]; intros k H Ht; simpl in H.
  - rewrite Ht in H. unfold count_words; simpl. rewrite Nat.add_0_r.
    tauto.
  - unfold count_words in *. simpl.
    destruct (is_word_token x); simpl.
    + destruct H as [_ H]. specialize (IH (S k) H Ht).
      replace (k + S (length (filter is_word_token pre)))
        with (S k + length (filter is_word_token pre)) by lia.
      assumption.
    + apply IH; assumption.
Qed.

Lemma count_words_none (toks : list Token) :
  count_words toks = 0 <-> existsb is_word_token toks = false.
Proof.
  unfold count_words. induction toks as [|t r IH]; simpl; [tauto|].
  destruct (is_word_token t); simpl; [|assumption].
  split; [lia | discriminate].
Qed.

Lemma count_words_app (a b : list Token) :
  count_words (a ++ b) = count_words a + count_words b.
Proof. unfold count_words. rewrite filter_app. apply length_app. Qed.

(** Round trip: the tokens, concatenated, are the text. *)
Lemma tokenize_concat (nlp : option Tagger) (text : jsstring) :
  concat (map (@original) (tokenize nlp text)) = text.
Proof.
  unfold tokenize. rewrite tokenize_loop_concat by lia. reflexivity.
Qed.

Lemma tokenize_well_formed (nlp : option Tagger) (text : jsstring) :
  Forall well_formed_token (tokenize nlp text).
Proof. apply tokenize_loop_well_formed. Qed.

Lemma tokenize_alternating (nlp : option Tagger) (text : jsstring) :
  alternating (tokenize nlp text).
Proof. apply tokenize_loop_alternating. Qed.

(** [isFirstWord] marks the first word token and [isLastWord] the last
    one. *)
Lemma tokenize_flags (nlp : option Tagger) (text : jsstring)
  (pre post : list Token) (t : Token) :
  tokenize nlp text = pre ++ t :: post -> is_word_token t = true ->
  isFirstWord t = negb (existsb is_word_token pre) /\
  isLastWord t = negb (existsb is_word_token post).
Proof.
  intros Hsplit Ht.
  assert (Hcount : length (match_all text) = count_words (tokenize nlp text))
    by (unfold tokenize, match_all; rewrite tokenize_loop_count; reflexivity).
  assert (Hflags : flags_from 0 (length (match_all text)) (tokenize nlp text))
    by apply tokenize_loop_flags.
  rewrite Hsplit in Hflags, Hcount.
  destruct (flags_from_split _ _ _ _ _ Hflags Ht) as [H1 H2].
  rewrite Hcount in H2. rewrite count_words_app in H2.
  change (t :: post) with ([t] ++ post) in H2.
  rewrite count_words_app in H2.
  assert (Hone : count_words [t] = 1)
    by (unfold count_words; simpl; rewrite Ht; reflexivity).
  rewrite Hone in H2. simpl in H1.
  rewrite H1, H2. split.
  - destruct (existsb is_word_token pre) eqn:E; simpl.
    + apply Nat.eqb_neq. intros H0. apply count_words_none in H0. congruence.
    + apply Nat.eqb_eq. apply count_words_none. assumption.
  - destruct (existsb is_word_token post) eqn:E; simpl.
    + apply Z.eqb_neq. intros H0.
      assert (count_words post = 0) by lia.
      apply count_words_none in H. congruence.
    + apply Z.eqb_eq. apply count_words_none in E. lia.
Qed.

(** *** Without a tagger *)

Lemma tokenize_loop_untagged (fuel : nat) (text : jsstring)
  (T i k n : nat) (pc : bool) :
  Forall untagged (tokenize_loop fuel [] text T i k n pc).
Proof.
  revert i k n pc. induction fuel as [|fuel IH]; intros i k n pc;
    [constructor|].
  simpl. destruct (regex_exec text i) as [[idx m]|].
  - unfold tag_word. simpl.
    apply Forall_app. split.
    + destruct (i <? idx); repeat constructor.
    + constructor; [split; reflexivity | apply IH].
  - destruct (i <? length text); repeat constructor.
Qed.

Lemma tokenize_untagged (text : jsstring) :
  Forall untagged (tokenize None text).
Proof. apply tokenize_loop_untagged. Qed.

(** *** Lower-casing the text lower-cases the tokens *)

Lemma substring_lower (text : jsstring) (a b : nat) :
  substring (toLowerCase text) a b = toLowerCase (substring text a b).
Proof. unfold substring, toLowerCase. rewrite skipn_map, firstn_map. reflexivity. Qed.

Lemma includes_colon_lower (s : jsstring) :
  includes_char (toLowerCase s) COLON = includes_char s COLON.
Proof.
  unfold includes_char, toLowerCase.
  induction s as [|c s IH]; cbn [existsb map]; [reflexivity|].
  rewrite lower_unit_colon, IH. reflexivity.
Qed.

Lemma includes_hyphen_lower (s : jsstring) :
  includes_char (toLowerCase s) HYPHEN = includes_char s HYPHEN.
Proof.
  unfold includes_char, toLowerCase.
  induction s as [|c s IH]; cbn [existsb map]; [reflexivity|].
  rewrite lower_unit_hyphen, IH. reflexivity.
Qed.

Lemma match_all_from_lower (fuel : nat) (text : jsstring) (i : nat) :
  match_all_from fuel (toLowerCase text) i
  = map toLowerCase (match_all_from fuel text i).
Proof.
  revert i. induction fuel as [|fuel IH]; intros i; [reflexivity|].
  simpl. rewrite regex_exec_lower.
  destruct (regex_exec text i) as [[idx m]|]; [|reflexivity].
  simpl. rewrite length_toLowerCase, IH. reflexivity.
Qed.

Lemma tokenize_loop_lower (fuel : nat) (text : jsstring)
  (T i k n : nat) (pc : bool) :
  tokenize_loop fuel [] (toLowerCase text) T i k n pc
  = map lower_token (tokenize_loop fuel [] text T i k n pc).
Proof.
  revert i k n pc. induction fuel as [|fuel IH]; intros i k n pc;
    [reflexivity|].
  simpl. rewrite regex_exec_lower.
  destruct (regex_exec text i) as [[idx m]|].
  - unfold tag_word. simpl.
    rewrite map_app. simpl. rewrite length_toLowerCase, IH.
    rewrite substring_lower, includes_colon_lower.
    f_equal. destruct (i <? idx); reflexivity.
  - rewrite length_toLowerCase, substring_lower.
    destruct (i <? length text); reflexivity.
Qed.

Lemma tokenize_lower (text : jsstring) :
  tokenize None (toLowerCase text) = map lower_token (tokenize None text).
Proof.
  unfold tokenize, match_all.
  rewrite match_all_from_lower, !length_toLowerCase, length_map.
  apply tokenize_loop_lower.
Qed.

(** ** The rule engine on one word *)

(** Without a grammatical function a word is either capitalized or
    lower-cased. *)
Lemma applyPlainWordRules_cases (w : jsstring) (isFirst isLast ac : bool)
  (style : jsstring) (tag : option POS) :
  let r := applyPlainWordRules w (toLowerCase w) isFirst isLast ac style
             None tag in
  r = capitalize w \/ r = toLowerCase w.
Proof.
  unfold applyPlainWordRules, applyStaticRules, applyAMARules, applyAPRules,
    applyAPARules, applyBluebookRules, applyChicagoRules, applyMLARules,
    applyNYTRules, applyWikipediaRules.
  cbv zeta. branch_cases; auto.
Qed.

(** The verdict depends on the word only through its lower-case form. *)
Lemma applyPlainWordRules_lower (w : jsstring) (isFirst isLast ac : bool)
  (style : jsstring) (tag : option POS) :
  ascii_string w ->
  applyPlainWordRules (toLowerCase w) (toLowerCase (toLowerCase w))
    isFirst isLast ac style None tag
  = applyPlainWordRules w (toLowerCase w) isFirst isLast ac style None tag.
Proof.
  intros H.
  unfold applyPlainWordRules, applyStaticRules, applyAMARules, applyAPRules,
    applyAPARules, applyBluebookRules, applyChicagoRules, applyMLARules,
    applyNYTRules, applyWikipediaRules.
  rewrite toLowerCase_idem, length_toLowerCase,
    (capitalize_toLowerCase w H).
  reflexivity.
Qed.

Lemma word_chars_no_hyphen (w : jsstring) :
  forallb is_word_char w = true -> includes_char w HYPHEN = false.
Proof.
  intros H. apply includes_char_false. intros Hin.
  rewrite forallb_forall in H. specialize (H _ Hin).
  discriminate H.
Qed.

(** What [toTitleCase] pushes for a token of the tokenizer: the hyphen test
    of [applyStyleRules] fails on every word token. *)
Lemma convertToken_word (style : jsstring) (t : Token) (w : jsstring) :
  well_formed_token t -> word t = Some w ->
  convertToken style t
  = applyPlainWordRules w (toLowerCase w) (isFirstWord t) (isLastWord t)
      (afterColon t) style (grammaticalFunction t) (posTag t).
Proof.
  unfold well_formed_token, convertToken. intros H Hw. rewrite Hw in *.
  destruct H as (_ & Hne & Hc).
  destruct w as [|c w']; [congruence|].
  unfold applyStyleRules. rewrite (word_chars_no_hyphen _ Hc). reflexivity.
Qed.

Lemma convertToken_separator (style : jsstring) (t : Token) :
  word t = None -> convertToken style t = original t.
Proof. unfold convertToken. intros ->. reflexivity. Qed.

Lemma convertToken_same_up_to_case (style : jsstring) (t : Token) :
  well_formed_token t -> untagged t -> ascii_string (original t) ->
  same_up_to_case (convertToken style t) (original t) /\
  ascii_string (convertToken style t).
Proof.
  intros Hwf [Hg Hp] Ha. destruct (word t) as [w|] eqn:Hw.
  - rewrite (convertToken_word style t w Hwf Hw), Hg.
    unfold well_formed_token in Hwf. rewrite Hw in Hwf.
    destruct Hwf as (Ho & _ & _). rewrite Ho in *.
    destruct (capitalize_ascii w Ha) as (C1 & C2 & C3).
    destruct (applyPlainWordRules_cases w (isFirstWord t) (isLastWord t)
                (afterColon t) style (posTag t)) as [-> | ->];
      unfold same_up_to_case.
    + auto.
    + rewrite toLowerCase_idem, length_toLowerCase.
      split; [split; reflexivity | apply ascii_toLowerCase; assumption].
  - rewrite convertToken_separator by assumption.
    split; [split; reflexivity | assumption].
Qed.

Lemma toLowerCase_boundary (s : jsstring) :
  forallb is_boundary s = true -> toLowerCase s = s.
Proof.
  induction s as [|c s IH]; simpl; [reflexivity|].
  rewrite andb_true_iff. intros [H1 H2].
  rewrite (lower_unit_boundary c H1), IH by assumption. reflexivity.
Qed.

Lemma convertToken_lower_token (style : jsstring) (t : Token) :
  well_formed_token t -> untagged t -> ascii_string (original t) ->
  convertToken style (lower_token t) = convertToken style t.
Proof.
  intros Hwf [Hg Hp] Ha. destruct (word t) as [w|] eqn:Hw.
  - rewrite (convertToken_word style t w Hwf Hw), Hg.
    unfold well_formed_token in Hwf. rewrite Hw in Hwf.
    destruct Hwf as (Ho & Hne & Hc). rewrite Ho in Ha.
    rewrite <- (applyPlainWordRules_lower w _ _ _ style (posTag t) Ha).
    unfold convertToken, lower_token. simpl. rewrite Hw, Hg. simpl.
    destruct w as [|c w']; [congruence|].
    simpl toLowerCase at 1.
    unfold applyStyleRules.
    change (lower_unit c :: toLowerCase w') with (toLowerCase (c :: w')).
    rewrite includes_hyphen_lower, (word_chars_no_hyphen _ Hc).
    reflexivity.
  - rewrite (convertToken_separator style t Hw).
    unfold convertToken, lower_token. simpl. rewrite Hw. simpl.
    unfold well_formed_token in Hwf. rewrite Hw in Hwf.
    apply toLowerCase_boundary. tauto.
Qed.

(** ** The conversion on Basic Latin text *)

Lemma ascii_concat (l : list jsstring) :
  ascii_string (concat l) <-> Forall ascii_string l.
Proof.
  induction l as [|x l IH]; simpl.
  - split; [constructor | reflexivity].
  - rewrite ascii_string_app, IH. split.
    + intros [H1 H2]. constructor; assumption.
    + intros H. inversion H; auto.
Qed.

Lemma tokenize_plain (text : jsstring) :
  ascii_string text -> Forall plain_token (tokenize None text).
Proof.
  intros Ha.
  pose proof (tokenize_well_formed None text) as Hwf.
  pose proof (tokenize_untagged text) as Hun.
  rewrite <- (tokenize_concat None text) in Ha.
  apply ascii_concat in Ha.
  induction (tokenize None text) as [|t r IH]; [constructor|].
  inversion Hwf; inversion Hun; inversion Ha; subst.
  constructor; [split; [assumption | split; assumption] | auto].
Qed.

Lemma toTitleCase_lower (text style : jsstring) :
  ascii_string text ->
  toTitleCase None (toLowerCase text) style = toTitleCase None text style.
Proof.
  intros Ha. unfold toTitleCase. rewrite tokenize_lower, map_map.
  f_equal. apply map_ext_in. intros t Hin.
  pose proof (tokenize_plain text Ha) as Hp.
  rewrite Forall_forall in Hp. destruct (Hp t Hin) as (H1 & H2 & H3).
  apply convertToken_lower_token; assumption.
Qed.

Lemma toTitleCase_same_case (text style : jsstring) :
  ascii_string text ->
  toLowerCase (toTitleCase None text style) = toLowerCase text /\
  length (toTitleCase None text style) = length text /\
  ascii_string (toTitleCase None text style).
Proof.
  intros Ha. pose proof (tokenize_plain text Ha) as Hp.
  rewrite <- (tokenize_concat None text) at 2 4.
  unfold toTitleCase.
  induction (tokenize None text) as [|t r IH]; simpl;
    [repeat split; reflexivity|].
  inversion Hp as [|? ? (H1 & H2 & H3) Hr]; subst.
  destruct (IH Hr) as (I1 & I2 & I3).
  destruct (convertToken_same_up_to_case style t H1 H2 H3)
    as ((C1 & C2) & C3).
  rewrite !toLowerCase_app, !length_app, C1, C2, I1, I2.
  repeat split. apply ascii_string_app. auto.
Qed.

Lemma lower_token_pattern (a b : list Token) :
  map lower_token a = map lower_token b ->
  Forall well_formed_token a -> Forall well_formed_token b ->
  map is_word_token a = map is_word_token b /\
  separators a = separators b.
Proof.
  revert b. induction a as [|x a IH]; intros [|y b] H Ha Hb;
    try discriminate; [split; reflexivity|].
  simpl in H. injection H as Ho Hw _ _ _ _ _ Hab.
  inversion Ha as [|? ? Hx Ha']; inversion Hb as [|? ? Hy Hb']; subst.
  destruct (IH b Hab Ha' Hb') as [I1 I2].
  unfold separators, is_word_token, well_formed_token in *. simpl.
  destruct (word x), (word y); try discriminate; simpl.
  - rewrite I1, I2. split; reflexivity.
  - rewrite I1, I2. split; [reflexivity|]. f_equal.
    rewrite !toLowerCase_boundary in Ho by tauto. assumption.
Qed.

Lemma toTitleCase_split (nlp : option Tagger) (text style : jsstring)
  (pre post : list Token) (t : Token) :
  tokenize nlp text = pre ++ t :: post ->
  toTitleCase nlp text style
  = concat (map (convertToken style) pre) ++ convertToken style t
    ++ concat (map (convertToken style) post).
Proof.
  intros H. unfold toTitleCase. rewrite H, map_app, concat_app.
  reflexivity.
Qed.

Lemma separators_verbatim (style : jsstring) (toks : list Token) :
  existsb is_word_token toks = false ->
  concat (map (convertToken style) toks) = concat (map original toks).
Proof.
  induction toks as [|t r IH]; simpl; [reflexivity|].
  rewrite orb_false_iff. intros [H1 H2]. rewrite IH by assumption.
  f_equal. apply convertToken_separator.
  unfold is_word_token in H1. destruct (word t); [discriminate|reflexivity].
Qed.

(** ** Tokenizer boundaries *)

(** C1, on the code: [tokenize] does not keep the hyphens of
    "state-of-the-art" inside one word token.  It yields the four word
    tokens "state", "of", "the", "art" with three "-" separators between
    them, so the test for a hyphen at the top of [applyStyleRules] fails on
    each of them and the rules of [handleHyphenatedWord] are not applied:
    under AMA the conversion gives "State-of-the-Art", where
    [handleHyphenatedWord], which capitalizes both parts under AMA, gives
    "State-Of-The-Art" on the whole word. *)
Theorem hyphenated_word_is_split :
  tokenize None state_of_the_art
  = [word_token (str "state") true false; separator (str "-");
     word_token (str "of") false false; separator (str "-");
     word_token (str "the") false false; separator (str "-");
     word_token (str "art") false true] /\
  count_words (tokenize None state_of_the_art) = 4 /\
  toTitleCase None state_of_the_art AMA = str "State-of-the-Art" /\
  applyStyleRules state_of_the_art (toLowerCase state_of_the_art)
    true true false AMA None None
  = str "State-Of-The-Art".
Proof.
  repeat split; vm_compute; reflexivity.
Qed.

(** X19: [tokenize] loses nothing of the text and cuts it into maximal
    runs: for every text, with or without a tagger, the tokens are
    non-empty runs of word characters (word tokens) and non-empty runs of
    white space and dash characters (separators), words and separators
    alternate, and the tokens concatenated in order give the text back. *)
Theorem tokenize_round_trip (nlp : option Tagger) (text : jsstring) :
  Forall well_formed_token (tokenize nlp text) /\
  alternating (tokenize nlp text) /\
  concat (map original (tokenize nlp text)) = text.
Proof.
  split; [apply tokenize_well_formed|].
  split; [apply tokenize_alternating | apply tokenize_concat].
Qed.

(** ** Round-trip structure *)

(** C2, as stated: on the one-letter text U+00DF the output "SS" has one
    character more than the input. *)
Lemma round_trip_fails_on_sharp_s :
  ~ round_trip_structure [SHARP_S] Chicago.
Proof.
  intros (_ & (pieces & Hout & HF) & _).
  change (tokenize None [SHARP_S])
    with [word_token [SHARP_S] true true] in HF.
  inversion HF as [|? p ? ps Hp Hps]; subst. inversion Hps; subst.
  simpl in Hout. rewrite app_nil_r in Hout. subst p.
  destruct Hp as [_ Hlen]. vm_compute in Hlen. discriminate Hlen.
Qed.

(** C2, amended: for every text of Basic Latin (ASCII) characters and
    every style, with no tagger, the round-trip structure holds. *)
Theorem round_trip_structure_ascii (text style : jsstring) :
  ascii_string text -> round_trip_structure text style.
Proof.
  intros Ha. unfold round_trip_structure. cbv zeta.
  split; [apply tokenize_concat|]. split.
  - exists (map (convertToken style) (tokenize None text)).
    split; [reflexivity|].
    pose proof (tokenize_plain text Ha) as Hp.
    induction Hp as [|t r (H1 & H2 & H3) Hr IH]; simpl; constructor;
      [|assumption].
    destruct (convertToken_same_up_to_case style t H1 H2 H3) as [Hs _].
    unfold piece_matches. destruct (word t) as [w|] eqn:Hw.
    + unfold well_formed_token in H1. rewrite Hw in H1.
      destruct H1 as [Ho _]. rewrite <- Ho. assumption.
    + apply convertToken_separator. assumption.
  - apply lower_token_pattern; try apply tokenize_well_formed.
    rewrite <- !tokenize_lower.
    destruct (toTitleCase_same_case text style Ha) as (-> & _ & _).
    reflexivity.
Qed.

Lemma round_trip_structure_ascii_witness :
  ascii_string (str "war and peace") /\
  round_trip_structure (str "war and peace") Chicago.
Proof.
  split; [reflexivity|].
  apply (round_trip_structure_ascii (str "war and peace") Chicago).
  reflexivity.
Defined.

(** ** Words by position *)

Lemma first_word_exists (toks : list Token) :
  existsb is_word_token toks = true ->
  exists pre t post w,
    toks = pre ++ t :: post /\ word t = Some w /\
    existsb is_word_token pre = false.
Proof.
  induction toks as [|x r IH]; simpl; [discriminate|].
  destruct (is_word_token x) eqn:E; simpl.
  - intros _. unfold is_word_token in E.
    destruct (word x) as [w|] eqn:Hw; [|discriminate].
    exists [], x, r, w. auto.
  - intros H. destruct (IH H) as (pre & t & post & w & -> & Hw & Hp).
    exists (x :: pre), t, post, w. simpl. rewrite E. auto.
Qed.

Lemma last_word_exists (toks : list Token) :
  existsb is_word_token toks = true ->
  exists pre t post w,
    toks = pre ++ t :: post /\ word t = Some w /\
    existsb is_word_token post = false.
Proof.
  induction toks as [|x r IH]; simpl; [discriminate|].
  destruct (existsb is_word_token r) eqn:Er.
  - intros _. destruct (IH eq_refl) as (pre & t & post & w & -> & Hw & Hp).
    exists (x :: pre), t, post, w. auto.
  - rewrite orb_false_r. intros E. unfold is_word_token in E.
    destruct (word x) as [w|] eqn:Hw; [|discriminate].
    exists [], x, r, w. auto.
Qed.

Lemma word_is_word_token (t : Token) (w : jsstring) :
  word t = Some w -> is_word_token t = true.
Proof. unfold is_word_token. intros ->. reflexivity. Qed.

Lemma tokenize_in_well_formed (nlp : option Tagger) (text : jsstring)
  (pre post : list Token) (t : Token) :
  tokenize nlp text = pre ++ t :: post -> well_formed_token t.
Proof.
  intros H. pose proof (tokenize_well_formed nlp text) as Hwf.
  rewrite Forall_forall in Hwf. apply Hwf. rewrite H. apply in_elt.
Qed.

(** A word that is neither the first nor the last one, with no tagger:
    the position tests of [applyStyleRules] fail. *)
Lemma convertToken_middle_word (text style : jsstring)
  (pre post : list Token) (t : Token) (w : jsstring) :
  tokenize None text = pre ++ t :: post -> word t = Some w ->
  existsb is_word_token pre = true -> existsb is_word_token post = true ->
  convertToken style t
  = if afterColon t && streq style APA then capitalize w
    else applyStaticRules w (toLowerCase w) style.
Proof.
  intros Hs Hw Hpre Hpost.
  rewrite (convertToken_word style t w (tokenize_in_well_formed _ _ _ _ _ Hs) Hw).
  destruct (tokenize_flags _ _ _ _ _ Hs (word_is_word_token _ _ Hw))
    as [Hf Hl].
  pose proof (tokenize_untagged text) as Hun.
  rewrite Forall_forall in Hun.
  destruct (Hun t) as [Hg _]; [rewrite Hs; apply in_elt|].
  unfold applyPlainWordRules.
  rewrite Hf, Hl, Hpre, Hpost, Hg. reflexivity.
Qed.

(** ** First and last word *)

(** C3: the first word of the output is capitalized under every style,
    and the last word under every style other than AMA, APA and Bluebook;
    a text with a word token has a first and a last word;
    "a tale of two cities" gives "A Tale of Two Cities" under Chicago. *)
Theorem first_and_last_word_capitalized :
  (forall (nlp : option Tagger) (text style : jsstring)
          (pre post : list Token) (t : Token) (w : jsstring),
     tokenize nlp text = pre ++ t :: post -> word t = Some w ->
     (existsb is_word_token pre = false ->
      convertToken style t = capitalize w /\
      toTitleCase nlp text style
      = concat (map original pre) ++ capitalize w
        ++ concat (map (convertToken style) post)) /\
     (existsb is_word_token post = false ->
      has [AMA; APA; Bluebook] style = false ->
      convertToken style t = capitalize w /\
      toTitleCase nlp text style
      = concat (map (convertToken style) pre) ++ capitalize w
        ++ concat (map original post))) /\
  (forall (nlp : option Tagger) (text : jsstring),
     existsb is_word_token (tokenize nlp text) = true ->
     (exists pre t post w,
        tokenize nlp text = pre ++ t :: post /\ word t = Some w /\
        existsb is_word_token pre = false) /\
     (exists pre t post w,
        tokenize nlp text = pre ++ t :: post /\ word t = Some w /\
        existsb is_word_token post = false)) /\
  toTitleCase None (str "a tale of two cities") Chicago
  = str "A Tale of Two Cities".
Proof.
  split; [|split].
  - intros nlp text style pre post t w Hs Hw.
    pose proof (convertToken_word style t w
                  (tokenize_in_well_formed _ _ _ _ _ Hs) Hw) as Hc.
    destruct (tokenize_flags _ _ _ _ _ Hs (word_is_word_token _ _ Hw))
      as [Hf Hl].
    split.
    + intros Hpre.
      assert (Hcap : convertToken style t = capitalize w).
      { rewrite Hc. unfold applyPlainWordRules.
        rewrite Hf, Hpre. reflexivity. }
      split; [assumption|].
      rewrite (toTitleCase_split nlp text style pre post t Hs), Hcap.
      rewrite separators_verbatim by assumption. reflexivity.
    + intros Hpost Hstyle.
      assert (Hcap : convertToken style t = capitalize w).
      { rewrite Hc. unfold applyPlainWordRules.
        rewrite Hl, Hpost, Hstyle. simpl.
        destruct (isFirstWord t); reflexivity. }
      split; [assumption|].
      rewrite (toTitleCase_split nlp text style pre post t Hs), Hcap.
      rewrite (separators_verbatim style post) by assumption. reflexivity.
  - intros nlp text H. split;
      [apply first_word_exists | apply last_word_exists]; assumption.
  - vm_compute. reflexivity.
Qed.

Lemma first_and_last_word_capitalized_witness :
  tokenize None (str "two cities")
  = [] ++ word_token (str "two") true false
       :: [separator (str " "); word_token (str "cities") false true] /\
  word (word_token (str "two") true false) = Some (str "two") /\
  existsb is_word_token [] = false /\
  convertToken Chicago (word_token (str "two") true false)
  = capitalize (str "two").
Proof.
  split; [reflexivity|]. split; [reflexivity|]. split; [reflexivity|].
  apply (proj1 (proj1 first_and_last_word_capitalized
                  None (str "two cities") Chicago []
                  [separator (str " "); word_token (str "cities") false true]
                  (word_token (str "two") true false) (str "two")
                  eq_refl eq_refl)
               eq_refl).
Defined.

(** ** Same-style idempotence *)

(** C4, as stated: the text U+00DF becomes "SS", which becomes "Ss". *)
Lemma fixed_point_fails_on_sharp_s :
  ~ same_style_fixed_point [SHARP_S] Chicago.
Proof.
  unfold same_style_fixed_point. vm_compute. discriminate.
Qed.

(** C4, amended: for every text of Basic Latin (ASCII) characters and
    every style, with no tagger, converting the converted text again with
    the same style leaves it unchanged. *)
Theorem same_style_fixed_point_ascii (text style : jsstring) :
  ascii_string text -> same_style_fixed_point text style.
Proof.
  intros Ha. unfold same_style_fixed_point.
  destruct (toTitleCase_same_case text style Ha) as (Hl & _ & Ha').
  rewrite <- (toTitleCase_lower (toTitleCase None text style) style Ha').
  rewrite Hl. apply toTitleCase_lower. assumption.
Qed.

Lemma same_style_fixed_point_ascii_witness :
  ascii_string (str "the LORD of the rings") /\
  same_style_fixed_point (str "the LORD of the rings") MLA.
Proof.
  split; [reflexivity|].
  apply (same_style_fixed_point_ascii (str "the LORD of the rings") MLA).
  reflexivity.
Defined.

(** ** MLA: every preposition is lower-cased *)

Lemma applyStaticRules_MLA (w lw : jsstring) :
  applyStaticRules w lw MLA = applyMLARules w lw.
Proof. reflexivity. Qed.

Lemma applyStaticRules_NYT (w lw : jsstring) :
  applyStaticRules w lw NewYorkTimes = applyNYTRules w lw.
Proof. reflexivity. Qed.

(** C5: under MLA, with no tagger, a word that is neither the first nor
    the last one and whose lower-case form is in the preposition lists is
    returned in lower case, whatever its length;
    "life beyond the stars" gives "Life beyond the Stars". *)
Theorem mla_lowercases_all_prepositions :
  (forall (text : jsstring) (pre post : list Token) (t : Token)
          (w : jsstring),
     tokenize None text = pre ++ t :: post -> word t = Some w ->
     existsb is_word_token pre = true ->
     existsb is_word_token post = true ->
     isPreposition (toLowerCase w) = true ->
     convertToken MLA t = toLowerCase w /\
     toTitleCase None text MLA
     = concat (map (convertToken MLA) pre) ++ toLowerCase w
       ++ concat (map (convertToken MLA) post)) /\
  toTitleCase None (str "life beyond the stars") MLA
  = str "Life beyond the Stars".
Proof.
  split; [|vm_compute; reflexivity].
  intros text pre post t w Hs Hw Hpre Hpost Hprep.
  assert (Hc : convertToken MLA t = toLowerCase w).
  { rewrite (convertToken_middle_word text MLA pre post t w Hs Hw Hpre Hpost).
    change (streq MLA APA) with false. rewrite andb_false_r.
    rewrite applyStaticRules_MLA. unfold applyMLARules.
    rewrite Hprep. branch_cases; reflexivity. }
  split; [assumption|].
  rewrite (toTitleCase_split None text MLA pre post t Hs), Hc. reflexivity.
Qed.

Lemma mla_lowercases_all_prepositions_witness :
  tokenize None (str "life beyond stars")
  = [word_token (str "life") true false; separator (str " ")]
    ++ word_token (str "beyond") false false
    :: [separator (str " "); word_token (str "stars") false true] /\
  isPreposition (toLowerCase (str "beyond")) = true /\
  convertToken MLA (word_token (str "beyond") false false)
  = toLowerCase (str "beyond").
Proof.
  split; [reflexivity|]. split; [reflexivity|].
  apply (proj1 mla_lowercases_all_prepositions
           (str "life beyond stars")
           [word_token (str "life") true false; separator (str " ")]
           [separator (str " "); word_token (str "stars") false true]
           (word_token (str "beyond") false false) (str "beyond")
           eq_refl eq_refl eq_refl eq_refl eq_refl).
Defined.

(** ** Hyphenated compound under Chicago *)

(** C6: "state-of-the-art design" gives "State-of-the-Art Design" under
    Chicago: "State" as first word, "of" (a preposition of at most four
    letters) and "the" (an article) in lower case, "Art" and "Design"
    capitalized. *)
Theorem chicago_state_of_the_art_design :
  toTitleCase None (str "state-of-the-art design") Chicago
  = str "State-of-the-Art Design" /\
  map (convertToken Chicago) (tokenize None (str "state-of-the-art design"))
  = [str "State"; str "-"; str "of"; str "-"; str "the"; str "-";
     str "Art"; str " "; str "Design"] /\
  (isPreposition (str "of") = true /\ length (str "of") <= 4) /\
  has articles (str "the") = true.
Proof.
  split; [vm_compute; reflexivity|].
  split; [vm_compute; reflexivity|].
  split; [split; [reflexivity | simpl; lia] | reflexivity].
Qed.

(** ** New York Times override lists *)

Lemma nytLowercaseWords_short (w : jsstring) :
  has nytLowercaseWords (toLowerCase w) = true ->
  (4 <=? length w) = false /\
  has nytCapitalizeWords (toLowerCase w) = false.
Proof.
  intros H. apply has_In in H.
  rewrite <- (length_toLowerCase w).
  generalize dependent (toLowerCase w). intros lw H.
  unfold nytLowercaseWords, words in H. cbn [In map] in H.
  repeat (destruct H as [<- | H]; [split; reflexivity|]).
  destruct H.
Qed.

(** C7: under "New York Times", with no tagger, a word that is neither
    the first nor the last one is capitalized when its lower-case form is
    in the capitalize list and lower-cased when it is in the lowercase
    list; every word of four or more characters is capitalized;
    "up in arms" gives "Up in Arms". *)
Theorem nyt_override_lists :
  (forall (text : jsstring) (pre post : list Token) (t : Token)
          (w : jsstring),
     tokenize None text = pre ++ t :: post -> word t = Some w ->
     (4 <= length w -> convertToken NewYorkTimes t = capitalize w) /\
     (existsb is_word_token pre = true ->
      existsb is_word_token post = true ->
      (has nytCapitalizeWords (toLowerCase w) = true ->
       convertToken NewYorkTimes t = capitalize w) /\
      (has nytLowercaseWords (toLowerCase w) = true ->
       convertToken NewYorkTimes t = toLowerCase w))) /\
  nytCapitalizeWords
  = words ["no"; "nor"; "not"; "off"; "out"; "so"; "up"]%string /\
  nytLowercaseWords
  = words ["a"; "and"; "as"; "at"; "but"; "by"; "en"; "for"; "if"; "in";
           "of"; "on"; "or"; "the"; "to"; "v."; "vs."; "via"]%string /\
  toTitleCase None (str "up in arms") NewYorkTimes = str "Up in Arms".
Proof.
  split; [|split; [reflexivity | split; [reflexivity |
                                         vm_compute; reflexivity]]].
  intros text pre post t w Hs Hw. split.
  - intros Hlen. apply Nat.leb_le in Hlen.
    rewrite (convertToken_word NewYorkTimes t w
               (tokenize_in_well_formed _ _ _ _ _ Hs) Hw).
    pose proof (tokenize_untagged text) as Hun.
    rewrite Forall_forall in Hun.
    destruct (Hun t) as [Hg _]; [rewrite Hs; apply in_elt|].
    unfold applyPlainWordRules. cbv zeta.
    rewrite Hg, applyStaticRules_NYT. unfold applyNYTRules. rewrite Hlen.
    branch_cases; reflexivity.
  - intros Hpre Hpost.
    rewrite (convertToken_middle_word text NewYorkTimes pre post t w
               Hs Hw Hpre Hpost).
    change (streq NewYorkTimes APA) with false. rewrite andb_false_r.
    rewrite applyStaticRules_NYT. unfold applyNYTRules. split.
    + intros ->. branch_cases; reflexivity.
    + intros Hlow. destruct (nytLowercaseWords_short w Hlow) as [-> ->].
      rewrite Hlow. reflexivity.
Qed.

Lemma nyt_override_lists_witness :
  tokenize None (str "up in arms")
  = [word_token (str "up") true false; separator (str " ")]
    ++ word_token (str "in") false false
    :: [separator (str " "); word_token (str "arms") false true] /\
  has nytLowercaseWords (toLowerCase (str "in")) = true /\
  convertToken NewYorkTimes (word_token (str "in") false false)
  = toLowerCase (str "in").
Proof.
  split; [reflexivity|]. split; [reflexivity|].
  apply (proj2 (proj2 (proj1 nyt_override_lists
           (str "up in arms")
           [word_token (str "up") true false; separator (str " ")]
           [separator (str " "); word_token (str "arms") false true]
           (word_token (str "in") false false) (str "in")
           eq_refl eq_refl) eq_refl eq_refl) eq_refl).
Defined.

(** ** Unknown style *)

Lemma unknown_style (style : jsstring) :
  has namedStyles style = false ->
  streq style AMA = false /\ streq style AP = false /\
  streq style APA = false /\ streq style Bluebook = false /\
  streq style Chicago = false /\ streq style MLA = false /\
  streq style NewYorkTimes = false /\ streq style Wikipedia = false.
Proof.
  unfold has, namedStyles. cbn [existsb].
  rewrite !orb_false_iff. tauto.
Qed.

(** C8: for a style that is none of the eight named ones, with no
    tagger, the conversion returns the text with every word token
    capitalized and every separator unchanged. *)
Theorem unknown_style_capitalizes_every_word (text style : jsstring) :
  has namedStyles style = false ->
  toTitleCase None text style
  = concat (map (fun t => match word t with
                          | Some w => capitalize w
                          | None => original t
                          end) (tokenize None text)).
Proof.
  intros Hstyle.
  destruct (unknown_style style Hstyle)
    as (H1 & H2 & H3 & H4 & H5 & H6 & H7 & H8).
  unfold toTitleCase. f_equal. apply map_ext_in. intros t Hin.
  pose proof (tokenize_well_formed None text) as Hwf.
  pose proof (tokenize_untagged text) as Hun.
  rewrite Forall_forall in Hwf, Hun.
  destruct (Hun t Hin) as [Hg _]. specialize (Hwf t Hin).
  destruct (word t) as [w|] eqn:Hw;
    [|apply convertToken_separator; assumption].
  rewrite (convertToken_word style t w Hwf Hw), Hg.
  unfold applyPlainWordRules, applyStaticRules.
  rewrite H1, H2, H3, H4, H5, H6, H7, H8.
  branch_cases; reflexivity.
Qed.

Lemma unknown_style_capitalizes_every_word_witness :
  has namedStyles (str "Oxford") = false /\
  toTitleCase None (str "war and peace") (str "Oxford")
  = str "War And Peace".
Proof.
  split; [reflexivity|].
  rewrite (unknown_style_capitalizes_every_word
             (str "war and peace") (str "Oxford") eq_refl).
  reflexivity.
Defined.

(** ** Case-insensitivity *)

(** C9, as stated: the Kelvin sign U+212A and "k" are equal after
    lower-casing, but the first is returned unchanged and the second
    becomes "K". *)
Lemma case_sensitive_on_kelvin_sign :
  ~ case_insensitive [KELVIN] (str "k") Chicago.
Proof.
  unfold case_insensitive. intros H.
  specialize (H eq_refl). vm_compute in H. discriminate H.
Qed.

(** C9, amended: for every style, with no tagger, two texts of Basic
    Latin (ASCII) characters that are equal after lower-casing give the
    same output; internal capitals are not kept: "McDonald" comes out as
    "Mcdonald". *)
Theorem case_insensitive_ascii :
  (forall a b style : jsstring,
     ascii_string a -> ascii_string b -> case_insensitive a b style) /\
  (capitalize (str "McDonald") = str "Mcdonald" /\
   forall style : jsstring,
     toTitleCase None (str "McDonald") style = str "Mcdonald").
Proof.
  split.
  - intros a b style Ha Hb Heq.
    rewrite <- (toTitleCase_lower a style Ha), Heq.
    apply toTitleCase_lower. assumption.
  - split; [reflexivity|]. intros style. vm_compute. reflexivity.
Qed.

Lemma case_insensitive_ascii_witness :
  ascii_string (str "WAR and peace") /\
  ascii_string (str "war AND Peace") /\
  toLowerCase (str "WAR and peace") = toLowerCase (str "war AND Peace") /\
  toTitleCase None (str "WAR and peace") Chicago
  = toTitleCase None (str "war AND Peace") Chicago.
Proof.
  split; [reflexivity|]. split; [reflexivity|]. split; [reflexivity|].
  apply (proj1 case_insensitive_ascii
           (str "WAR and peace") (str "war AND Peace") Chicago
           eq_refl eq_refl eq_refl).
Defined.

(** ** Word tokens hold no hyphen *)

Lemma word_char_spec (c : code_unit) :
  is_word_char c = true ->
  c <> HYPHEN /\ c <> EN_DASH /\ c <> EM_DASH /\ is_white_space c = false.
Proof.
  unfold is_word_char, is_boundary. rewrite negb_true_iff, !orb_false_iff.
  intros [[[H1 H2] H3] H4].
  apply N.eqb_neq in H2, H3, H4. auto.
Qed.

(** C10: a word token of the tokenizer holds no hyphen, en dash, em dash
    or white space character, so the hyphen test of [applyStyleRules] fails
    on it and [handleHyphenatedWord] plays no part in the conversion; a
    separator, such as a hyphen, is emitted unchanged.  Under AMA
    "state-of-the-art" gives "State-of-the-Art", where
    [handleHyphenatedWord] would give "State-Of-The-Art". *)
Theorem word_tokens_hold_no_hyphen :
  (forall (nlp : option Tagger) (text style : jsstring) (t : Token),
     In t (tokenize nlp text) ->
     match word t with
     | Some w =>
       (forall c, In c w ->
          c <> HYPHEN /\ c <> EN_DASH /\ c <> EM_DASH /\
          is_white_space c = false) /\
       includes_char w HYPHEN = false /\
       convertToken style t
       = applyPlainWordRules w (toLowerCase w) (isFirstWord t)
           (isLastWord t) (afterColon t) style (grammaticalFunction t)
           (posTag t)
     | None => convertToken style t = original t
     end) /\
  toTitleCase None state_of_the_art AMA = str "State-of-the-Art" /\
  handleHyphenatedWord state_of_the_art true true AMA
  = str "State-Of-The-Art".
Proof.
  split; [|split; vm_compute; reflexivity].
  intros nlp text style t Hin.
  pose proof (tokenize_well_formed nlp text) as Hwf.
  rewrite Forall_forall in Hwf. specialize (Hwf t Hin).
  destruct (word t) as [w|] eqn:Hw;
    [|apply convertToken_separator; assumption].
  pose proof Hwf as Hwf'.
  unfold well_formed_token in Hwf'. rewrite Hw in Hwf'.
  destruct Hwf' as (_ & _ & Hc).
  split; [|split].
  - intros c Hcin. apply word_char_spec.
    rewrite forallb_forall in Hc. auto.
  - apply word_chars_no_hyphen. assumption.
  - apply convertToken_word; assumption.
Qed.

Lemma word_tokens_hold_no_hyphen_witness :
  In (word_token (str "of") false false) (tokenize None state_of_the_art) /\
  includes_char (str "of") HYPHEN = false.
Proof.
  assert (Hin : In (word_token (str "of") false false)
                  (tokenize None state_of_the_art))
    by (vm_compute; tauto).
  split; [exact Hin|].
  exact (proj1 (proj2 (proj1 word_tokens_hold_no_hyphen
                         None state_of_the_art AMA
                         (word_token (str "of") false false) Hin))).
Defined.

(** ** The colon flag *)

Lemma boundary_no_colon (s : jsstring) :
  forallb is_boundary s = true -> includes_char s COLON = false.
Proof.
  intros H. apply includes_char_false. intros Hin.
  rewrite forallb_forall in H. specialize (H _ Hin).
  discriminate H.
Qed.

Lemma tokenize_loop_afterColon (fuel : nat) (terms : list (option Term))
  (text : jsstring) (T i k n : nat) :
  Forall (fun t => afterColon t = false)
    (tokenize_loop fuel terms text T i k n false).
Proof.
  revert i k n. induction fuel as [|fuel IH]; intros i k n; [constructor|].
  simpl. destruct (regex_exec text i) as [[idx m]|] eqn:E.
  - destruct (tag_word terms n m) as [[tag gf] n'].
    apply regex_exec_Some in E.
    destruct E as (gap & _ & Hsub & Hg & _).
    rewrite Hsub, (boundary_no_colon gap Hg), andb_false_r.
    apply Forall_app. split.
    + destruct (i <? idx); repeat constructor.
    + constructor; [reflexivity | apply IH].
  - destruct (i <? length text); repeat constructor.
Qed.

(** X1: no token of the tokenizer has [afterColon] set.  A separator is a
    run of white space and dashes, so it never holds the colon that
    [tokenize] looks for there (a colon is part of the word before it), and
    the rule of [applyStyleRules] for the first word after a colon under
    APA is never used: "title: a story" gives "Title: a Story". *)
Theorem afterColon_never_set :
  (forall (nlp : option Tagger) (text : jsstring),
     Forall (fun t => afterColon t = false) (tokenize nlp text)) /\
  token_texts (tokenize None (str "title: a story"))
  = [(true, str "title:"); (false, str " "); (true, str "a");
     (false, str " "); (true, str "story")] /\
  toTitleCase None (str "title: a story") APA = str "Title: a Story".
Proof.
  split; [intros; apply tokenize_loop_afterColon|].
  split; vm_compute; reflexivity.
Qed.

(** ** Text without words *)

Lemma in_concat_original (toks : list Token) (t : Token) (c : code_unit) :
  In t toks -> In c (original t) -> In c (concat (map original toks)).
Proof.
  intros Ht Hc. apply in_concat. exists (original t).
  split; [apply in_map; assumption | assumption].
Qed.

(** X2: a text with no word character (the empty text, white space,
    dashes) is returned unchanged, under every style and with or without a
    tagger. *)
Theorem toTitleCase_without_words (nlp : option Tagger)
  (text style : jsstring) :
  forallb is_boundary text = true -> toTitleCase nlp text style = text.
Proof.
  intros Hb. unfold toTitleCase.
  rewrite <- (tokenize_concat nlp text) at 2.
  f_equal. apply map_ext_in. intros t Hin.
  pose proof (tokenize_well_formed nlp text) as Hwf.
  rewrite Forall_forall in Hwf. specialize (Hwf t Hin).
  unfold well_formed_token in Hwf.
  destruct (word t) as [w|] eqn:Hw;
    [|apply convertToken_separator; assumption].
  exfalso. destruct Hwf as (Ho & Hne & Hc).
  destruct w as [|c w']; [congruence|].
  assert (Hcin : In c (concat (map original (tokenize nlp text))))
    by (apply (in_concat_original _ t); [assumption | rewrite Ho; left; reflexivity]).
  rewrite tokenize_concat in Hcin.
  rewrite forallb_forall in Hb. specialize (Hb c Hcin).
  simpl in Hc. apply andb_true_iff in Hc. destruct Hc as [Hc _].
  unfold is_word_char in Hc. rewrite Hb in Hc. discriminate Hc.
Qed.

Lemma toTitleCase_without_words_witness :
  forallb is_boundary (str " - ") = true /\
  toTitleCase None (str " - ") MLA = str " - ".
Proof.
  split; [reflexivity|].
  apply (toTitleCase_without_words None (str " - ") MLA). reflexivity.
Defined.

(** ** Terms and words *)

Lemma tag_word_tags (terms : list (option Term)) (k : nat) (m : jsstring) :
  let '(tag, gf, n') := tag_word terms (Nat.min k (length terms)) m in
  (tag, gf) = tags_of_word terms k m /\
  n' = Nat.min (S k) (length terms).
Proof.
  unfold tag_word, tags_of_word.
  destruct (Nat.ltb_spec (Nat.min k (length terms)) (length terms)) as [H|H].
  - assert (Hk : k < length terms) by lia.
    replace (Nat.min k (length terms)) with k by lia.
    destruct (nth_error terms k) as [[term|]|];
      [destruct (determineGrammaticalFunction_throws m term (getPOSTag term))
      | | ]; split; try reflexivity; lia.
  - assert (Hk : length terms <= k) by lia.
    apply nth_error_None in Hk. rewrite Hk. split; [reflexivity | lia].
Qed.

Lemma tokenize_loop_tags (fuel : nat) (terms : list (option Term))
  (text : jsstring) (T i k : nat) (pc : bool) :
  tags_from terms k
    (tokenize_loop fuel terms text T i k (Nat.min k (length terms)) pc).
Proof.
  revert i k pc. induction fuel as [|fuel IH]; intros i k pc; [exact I|].
  simpl. destruct (regex_exec text i) as [[idx m]|] eqn:E.
  - pose proof (tag_word_tags terms k m) as Ht.
    destruct (tag_word terms (Nat.min k (length terms)) m) as [[tag gf] n'].
    destruct Ht as [Ht ->].
    destruct (i <? idx); simpl; (split; [assumption | apply IH]).
  - destruct (i <? length text); exact I.
Qed.

Lemma tags_from_split (terms : list (option Term)) (k : nat)
  (pre post : list Token) (t : Token) :
  tags_from terms k (pre ++ t :: post) -> is_word_token t = true ->
  (posTag t, grammaticalFunction t)
  = tags_of_word terms (k + count_words pre) (original t).
Proof.
  revert k. induction pre as [|x pre IH]; intros k H Ht; simpl in H.
  - rewrite Ht in H. unfold count_words; simpl. rewrite Nat.add_0_r.
    tauto.
  - unfold count_words in *. simpl.
    destruct (is_word_token x); simpl.
    + destruct H as [_ H]. specialize (IH (S k) H Ht).
      replace (k + S (length (filter is_word_token pre)))
        with (S k + length (filter is_word_token pre)) by lia.
      assumption.
    + apply IH; assumption.
Qed.

(** X3: the terms of the tagger are given to the words by position.  The
    word token with [k] word tokens before it carries no tag and no
    grammatical function when the tagger returned [k] terms or fewer or
    the look-up of the [k]-th term threw; else it carries the tag
    [getPOSTag] gives the [k]-th term, with the grammatical function that
    [determineGrammaticalFunction] computes from it, or with none when
    that computation throws (the tag assigned before it is kept). *)
Theorem terms_tag_words_by_position (tagger : Tagger) (text : jsstring)
  (pre post : list Token) (t : Token) :
  tokenize (Some tagger) text = pre ++ t :: post ->
  is_word_token t = true ->
  (posTag t, grammaticalFunction t)
  = tags_of_word (tagger text) (count_words pre) (original t).
Proof.
  intros Hs Ht.
  pose proof (tokenize_loop_tags (S (length text)) (tagger text) text
                (length (match_all text)) 0 0 false) as H.
  change (tokenize_loop _ _ _ _ _ _ _ _) with (tokenize (Some tagger) text)
    in H.
  rewrite Hs in H.
  exact (tags_from_split (tagger text) 0 pre post t H Ht).
Qed.

Lemma terms_tag_words_by_position_witness :
  tokenize (Some run_over_it_tagger) (str "run over it")
  = firstn 2 (tokenize (Some run_over_it_tagger) (str "run over it"))
    ++ {| original := str "over"; word := Some (str "over");
          isFirstWord := false; isLastWord := false; afterColon := false;
          posTag := Some adverb; grammaticalFunction := Some adverb |}
    :: skipn 3 (tokenize (Some run_over_it_tagger) (str "run over it")) /\
  (Some adverb, Some adverb)
  = tags_of_word (run_over_it_tagger (str "run over it")) 1 (str "over").
Proof.
  assert (Hs : tokenize (Some run_over_it_tagger) (str "run over it")
    = firstn 2 (tokenize (Some run_over_it_tagger) (str "run over it"))
    ++ {| original := str "over"; word := Some (str "over");
          isFirstWord := false; isLastWord := false; afterColon := false;
          posTag := Some adverb; grammaticalFunction := Some adverb |}
    :: skipn 3 (tokenize (Some run_over_it_tagger) (str "run over it"))).
  { vm_compute. reflexivity. }
  split; [exact Hs|].
  exact (terms_tag_words_by_position run_over_it_tagger (str "run over it")
           _ _ _ Hs eq_refl).
Defined.

Example tokenize_keeps_tag_when_classifier_throws :
  map (fun t => (posTag t, grammaticalFunction t))
    (filter is_word_token (tokenize (Some to_be_tagger) (str "to be")))
  = [(Some conjunction, None); (Some verb, Some verb)].
Proof. vm_compute. reflexivity. Qed.

(** ** Words of the tokenizer under the rule engine *)

Lemma convertToken_tokenized (nlp : option Tagger) (text style : jsstring)
  (t : Token) (w : jsstring) :
  In t (tokenize nlp text) -> word t = Some w ->
  convertToken style t
  = applyPlainWordRules w (toLowerCase w) (isFirstWord t) (isLastWord t)
      false style (grammaticalFunction t) (posTag t).
Proof.
  intros Hin Hw.
  pose proof (tokenize_well_formed nlp text) as Hwf.
  pose proof (tokenize_loop_afterColon (S (length text))
                (match nlp with Some tg => tg text | None => [] end)
                text (length (match_all text)) 0 0 0) as Hac.
  change (tokenize_loop _ _ _ _ _ _ _ _) with (tokenize nlp text) in Hac.
  rewrite Forall_forall in Hwf, Hac.
  rewrite (convertToken_word style t w (Hwf t Hin) Hw), (Hac t Hin).
  reflexivity.
Qed.

(** A word that is neither the first nor the last one. *)
Lemma convertToken_mid_sentence (nlp : option Tagger)
  (text style : jsstring) (pre post : list Token) (t : Token)
  (w : jsstring) :
  tokenize nlp text = pre ++ t :: post -> word t = Some w ->
  existsb is_word_token pre = true ->
  (existsb is_word_token post = true \/
   has [AMA; APA; Bluebook] style = true) ->
  convertToken style t
  = applyMidSentenceRules w (toLowerCase w) style (grammaticalFunction t)
      (posTag t).
Proof.
  intros Hs Hw Hpre Hpost.
  assert (Hin : In t (tokenize nlp text)) by (rewrite Hs; apply in_elt).
  rewrite (convertToken_tokenized nlp text style t w Hin Hw).
  destruct (tokenize_flags _ _ _ _ _ Hs (word_is_word_token _ _ Hw))
    as [Hf Hl].
  unfold applyPlainWordRules, applyMidSentenceRules. cbv zeta.
  rewrite Hf, Hpre. cbn [negb].
  destruct Hpost as [Hpost | Hstyle].
  - rewrite Hl, Hpost. reflexivity.
  - rewrite Hstyle, andb_false_r. reflexivity.
Qed.

(** X4: a word that the classifier resolves to a verb, noun, adjective,
    adverb or pronoun is capitalized, wherever it stands and under every
    style. *)
Theorem content_words_capitalized (nlp : option Tagger)
  (text style : jsstring) (t : Token) (w : jsstring) (g : POS) :
  In t (tokenize nlp text) -> word t = Some w ->
  grammaticalFunction t = Some g -> content_function g = true ->
  convertToken style t = capitalize w.
Proof.
  intros Hin Hw Hg Hc.
  rewrite (convertToken_tokenized nlp text style t w Hin Hw), Hg.
  unfold applyPlainWordRules. cbv zeta.
  destruct g; try discriminate Hc; cbn [applyNLPAwareRules];
    branch_cases; reflexivity.
Qed.

Lemma content_words_capitalized_witness :
  In {| original := str "over"; word := Some (str "over");
        isFirstWord := false; isLastWord := false; afterColon := false;
        posTag := Some adverb; grammaticalFunction := Some adverb |}
     (tokenize (Some run_over_it_tagger) (str "run over it")) /\
  content_function adverb = true /\
  convertToken Chicago
    {| original := str "over"; word := Some (str "over");
       isFirstWord := false; isLastWord := false; afterColon := false;
       posTag := Some adverb; grammaticalFunction := Some adverb |}
  = capitalize (str "over").
Proof.
  assert (Hin : In {| original := str "over"; word := Some (str "over");
        isFirstWord := false; isLastWord := false; afterColon := false;
        posTag := Some adverb; grammaticalFunction := Some adverb |}
     (tokenize (Some run_over_it_tagger) (str "run over it")))
    by (vm_compute; tauto).
  split; [exact Hin|]. split; [reflexivity|].
  exact (content_words_capitalized (Some run_over_it_tagger)
           (str "run over it") Chicago _ (str "over") adverb
           Hin eq_refl eq_refl eq_refl).
Defined.

(** X5: a word that is neither the first nor the last one and that the
    classifier resolves to an article is lower-cased under every style;
    resolved to the "to" of an infinitive it is capitalized under AP and
    lower-cased under every other style. *)
Theorem tagged_function_words (nlp : option Tagger) (text style : jsstring)
  (pre post : list Token) (t : Token) (w : jsstring) :
  tokenize nlp text = pre ++ t :: post -> word t = Some w ->
  existsb is_word_token pre = true ->
  existsb is_word_token post = true ->
  (grammaticalFunction t = Some article ->
   convertToken style t = toLowerCase w) /\
  (grammaticalFunction t = Some infinitive ->
   convertToken style t
   = if streq style AP then capitalize w else toLowerCase w).
Proof.
  intros Hs Hw Hpre Hpost.
  rewrite (convertToken_mid_sentence nlp text style pre post t w Hs Hw Hpre
             (or_introl Hpost)).
  unfold applyMidSentenceRules.
  split; intros ->; reflexivity.
Qed.

Lemma tagged_function_words_witness :
  tokenize (Some time_to_go_home_tagger) (str "time to go home")
  = firstn 2 (tokenize (Some time_to_go_home_tagger) (str "time to go home"))
    ++ tagged_token (str "to") false false None (Some infinitive)
    :: skipn 3
         (tokenize (Some time_to_go_home_tagger) (str "time to go home")) /\
  convertToken AP (tagged_token (str "to") false false None (Some infinitive))
  = capitalize (str "to") /\
  toTitleCase (Some time_to_go_home_tagger) (str "time to go home") Chicago
  = str "Time to Go Home".
Proof.
  assert (Hs : tokenize (Some time_to_go_home_tagger) (str "time to go home")
    = firstn 2
        (tokenize (Some time_to_go_home_tagger) (str "time to go home"))
    ++ tagged_token (str "to") false false None (Some infinitive)
    :: skipn 3
         (tokenize (Some time_to_go_home_tagger) (str "time to go home"))).
  { vm_compute. reflexivity. }
  split; [exact Hs|]. split; [|vm_compute; reflexivity].
  exact (proj2 (tagged_function_words (Some time_to_go_home_tagger)
                  (str "time to go home") AP _ _ _ (str "to")
                  Hs eq_refl eq_refl eq_refl) eq_refl).
Defined.

(** ** Long words *)

Lemma has_length_bound (set : list jsstring) (n : nat) (x : jsstring) :
  forallb (fun y => length y <=? n) set = true ->
  has set x = true -> length x <= n.
Proof.
  intros Hall H. apply has_In in H.
  rewrite forallb_forall in Hall. apply Nat.leb_le. auto.
Qed.

Lemma has_long_false (set : list jsstring) (n : nat) (x : jsstring) :
  forallb (fun y => length y <=? n) set = true ->
  n < length x -> has set x = false.
Proof.
  intros Hall Hx. destruct (has set x) eqn:E; [|reflexivity].
  pose proof (has_length_bound set n x Hall E). lia.
Qed.

Lemma streq_long_false (x y : jsstring) :
  length x <> length y -> streq x y = false.
Proof.
  intros H. destruct (streq x y) eqn:E; [|reflexivity].
  apply streq_eq in E. subst. congruence.
Qed.

(** With no tagger the [switch] on the style capitalizes every word of
    five or more characters, except the prepositions under MLA. *)
Lemma applyStaticRules_long (w style : jsstring) :
  5 <= length w ->
  streq style MLA = false \/ isPreposition (toLowerCase w) = false ->
  applyStaticRules w (toLowerCase w) style = capitalize w.
Proof.
  intros Hlen Hor.
  pose proof (length_toLowerCase w) as Hl.
  assert (Ha : has articles (toLowerCase w) = false)
    by (apply (has_long_false _ 3); [reflexivity | lia]).
  assert (Hc : has coordinatingConjunctions (toLowerCase w) = false)
    by (apply (has_long_false _ 3); [reflexivity | lia]).
  assert (Hch : has (words ["and"; "but"; "for"; "nor"; "or"]%string)
                  (toLowerCase w) = false)
    by (apply (has_long_false _ 3); [reflexivity | lia]).
  assert (Hto : streq (toLowerCase w) (str "to") = false)
    by (apply streq_long_false; simpl; lia).
  assert (Has : streq (toLowerCase w) (str "as") = false)
    by (apply streq_long_false; simpl; lia).
  assert (H4 : (4 <=? length w) = true) by (apply Nat.leb_le; lia).
  assert (H3 : (length w <=? 3) = false) by (apply Nat.leb_gt; lia).
  assert (H4' : (length w <=? 4) = false) by (apply Nat.leb_gt; lia).
  unfold applyStaticRules, applyAMARules, applyAPRules, applyAPARules,
    applyBluebookRules, applyChicagoRules, applyMLARules, applyNYTRules,
    applyWikipediaRules.
  rewrite Ha, Hc, Hch, Hto, Has, H4, H3, H4', ?andb_false_r.
  cbv iota.
  destruct Hor as [HM | HP]; [rewrite HM | rewrite HP];
    branch_cases; reflexivity.
Qed.

(** X6: with no tagger, a word of five or more characters is capitalized
    wherever it stands, under every style but MLA, and under MLA unless
    it is in the preposition lists. *)
Theorem long_words_capitalized (text style : jsstring) (t : Token)
  (w : jsstring) :
  In t (tokenize None text) -> word t = Some w -> 5 <= length w ->
  streq style MLA = false \/ isPreposition (toLowerCase w) = false ->
  convertToken style t = capitalize w.
Proof.
  intros Hin Hw Hlen Hor.
  rewrite (convertToken_tokenized None text style t w Hin Hw).
  pose proof (tokenize_untagged text) as Hun.
  rewrite Forall_forall in Hun. destruct (Hun t Hin) as [Hg _].
  unfold applyPlainWordRules. cbv zeta.
  rewrite Hg, (applyStaticRules_long w style Hlen Hor).
  branch_cases; reflexivity.
Qed.

Lemma long_words_capitalized_witness :
  In (word_token (str "beyond") false false)
     (tokenize None (str "life beyond the stars")) /\
  5 <= length (str "beyond") /\
  convertToken Chicago (word_token (str "beyond") false false)
  = capitalize (str "beyond").
Proof.
  assert (Hin : In (word_token (str "beyond") false false)
                  (tokenize None (str "life beyond the stars")))
    by (vm_compute; tauto).
  split; [exact Hin|]. split; [simpl; lia|].
  apply (long_words_capitalized (str "life beyond the stars") Chicago
           (word_token (str "beyond") false false) (str "beyond")
           Hin eq_refl).
  - simpl; lia.
  - left. reflexivity.
Defined.

(** ** Articles *)

Lemma applyStaticRules_AMA (w lw : jsstring) :
  applyStaticRules w lw AMA = applyAMARules w lw.
Proof. reflexivity. Qed.

Lemma applyStaticRules_AP (w lw : jsstring) :
  applyStaticRules w lw AP = applyAPRules w lw.
Proof. reflexivity. Qed.

Lemma applyStaticRules_APA (w lw : jsstring) :
  applyStaticRules w lw APA = applyAPARules w lw.
Proof. reflexivity. Qed.

Lemma applyStaticRules_Bluebook (w lw : jsstring) :
  applyStaticRules w lw Bluebook = applyBluebookRules w lw.
Proof. reflexivity. Qed.

Lemma applyStaticRules_Chicago (w lw : jsstring) :
  applyStaticRules w lw Chicago = applyChicagoRules w lw.
Proof. reflexivity. Qed.

Lemma applyStaticRules_Wikipedia (w lw : jsstring) :
  applyStaticRules w lw Wikipedia = applyWikipediaRules w lw.
Proof. reflexivity. Qed.

Lemma applyStaticRules_article (w style : jsstring) :
  has articles (toLowerCase w) = true ->
  has [AMA; AP; APA; Bluebook; Chicago; MLA; Wikipedia] style = true ->
  applyStaticRules w (toLowerCase w) style = toLowerCase w.
Proof.
  intros Ha Hstyle.
  assert (H4 : (4 <=? length w) = false).
  { apply Nat.leb_gt. rewrite <- (length_toLowerCase w).
    pose proof (has_length_bound articles 3 _ eq_refl Ha). lia. }
  apply has_In in Hstyle. cbn [In] in Hstyle.
  destruct Hstyle as [<-|[<-|[<-|[<-|[<-|[<-|[<-|[]]]]]]]].
  - rewrite applyStaticRules_AMA. unfold applyAMARules. rewrite Ha.
    reflexivity.
  - rewrite applyStaticRules_AP. unfold applyAPRules. rewrite H4, Ha.
    reflexivity.
  - rewrite applyStaticRules_APA. unfold applyAPARules. rewrite H4, Ha.
    reflexivity.
  - rewrite applyStaticRules_Bluebook. unfold applyBluebookRules.
    rewrite Ha. reflexivity.
  - rewrite applyStaticRules_Chicago. unfold applyChicagoRules.
    rewrite Ha. reflexivity.
  - rewrite applyStaticRules_MLA. unfold applyMLARules. rewrite Ha.
    reflexivity.
  - rewrite applyStaticRules_Wikipedia. unfold applyWikipediaRules.
    rewrite Ha. reflexivity.
Qed.

Lemma applyNYTRules_article (w : jsstring) :
  has articles (toLowerCase w) = true ->
  applyNYTRules w (toLowerCase w)
  = if streq (toLowerCase w) (str "an") then capitalize w
    else toLowerCase w.
Proof.
  intros Ha.
  assert (H4 : (4 <=? length w) = false).
  { apply Nat.leb_gt. rewrite <- (length_toLowerCase w).
    pose proof (has_length_bound articles 3 _ eq_refl Ha). lia. }
  unfold applyNYTRules. rewrite H4.
  apply has_In in Ha. generalize dependent (toLowerCase w). intros lw Ha.
  unfold articles, words in Ha. cbn [In map] in Ha.
  destruct Ha as [<-|[<-|[<-|[]]]]; reflexivity.
Qed.

(** X7: with no tagger, a word that is neither the first nor the last one
    and whose lower-case form is an article ("a", "an", "the") is
    lower-cased under AMA, AP, APA, Bluebook, Chicago, MLA and Wikipedia.
    Under "New York Times" only "a" and "the" are lower-cased: "an" is not
    in its lowercase list and is capitalized. *)
Theorem articles_lowercased_except_nyt_an (text style : jsstring)
  (pre post : list Token) (t : Token) (w : jsstring) :
  tokenize None text = pre ++ t :: post -> word t = Some w ->
  existsb is_word_token pre = true ->
  existsb is_word_token post = true ->
  has articles (toLowerCase w) = true ->
  (has [AMA; AP; APA; Bluebook; Chicago; MLA; Wikipedia] style = true ->
   convertToken style t = toLowerCase w) /\
  (streq style NewYorkTimes = true ->
   convertToken style t
   = if streq (toLowerCase w) (str "an") then capitalize w
     else toLowerCase w).
Proof.
  intros Hs Hw Hpre Hpost Ha.
  rewrite (convertToken_mid_sentence None text style pre post t w Hs Hw Hpre
             (or_introl Hpost)).
  pose proof (tokenize_untagged text) as Hun.
  rewrite Forall_forall in Hun.
  destruct (Hun t) as [Hg _]; [rewrite Hs; apply in_elt|].
  unfold applyMidSentenceRules. rewrite Hg.
  split.
  - apply applyStaticRules_article. assumption.
  - intros Hn. apply streq_eq in Hn. subst style.
    rewrite applyStaticRules_NYT. apply applyNYTRules_article. assumption.
Qed.

Lemma articles_lowercased_except_nyt_an_witness :
  tokenize None (str "once upon an hour")
  = firstn 4 (tokenize None (str "once upon an hour"))
    ++ word_token (str "an") false false
    :: skipn 5 (tokenize None (str "once upon an hour")) /\
  has articles (toLowerCase (str "an")) = true /\
  convertToken NewYorkTimes (word_token (str "an") false false) = str "An" /\
  toTitleCase None (str "once upon an hour") NewYorkTimes
  = str "Once Upon An Hour" /\
  toTitleCase None (str "once upon an hour") AP
  = str "Once Upon an Hour".
Proof.
  assert (Hs : tokenize None (str "once upon an hour")
    = firstn 4 (tokenize None (str "once upon an hour"))
    ++ word_token (str "an") false false
    :: skipn 5 (tokenize None (str "once upon an hour"))).
  { vm_compute. reflexivity. }
  split; [exact Hs|]. split; [reflexivity|].
  split; [|split; vm_compute; reflexivity].
  exact (proj2 (articles_lowercased_except_nyt_an
                  (str "once upon an hour") NewYorkTimes _ _ _ (str "an")
                  Hs eq_refl eq_refl eq_refl eq_refl) eq_refl).
Defined.

(** ** Bluebook and Wikipedia *)

(** The test on "to" of [applyWikipediaRules] never decides: "to" is a
    preposition of two letters, lower-cased by the test before it. *)
Lemma applyWikipediaRules_Bluebook (w : jsstring) :
  applyWikipediaRules w (toLowerCase w)
  = applyBluebookRules w (toLowerCase w).
Proof.
  unfold applyWikipediaRules, applyBluebookRules.
  destruct (has articles (toLowerCase w)); [reflexivity|].
  destruct (has coordinatingConjunctions (toLowerCase w)); [reflexivity|].
  destruct (isPreposition (toLowerCase w) && (length w <=? 4)) eqn:E;
    [reflexivity|].
  destruct (streq (toLowerCase w) (str "to")) eqn:Eto; [|reflexivity].
  apply streq_eq in Eto.
  rewrite <- (length_toLowerCase w), Eto in E. discriminate E.
Qed.

Lemma applyNLPAwareRules_Wikipedia_Bluebook (w lw : jsstring) (g : POS)
  (tag : option POS) :
  applyNLPAwareRules w lw g tag Wikipedia
  = applyNLPAwareRules w lw g tag Bluebook.
Proof. destruct g; reflexivity. Qed.

(** X8: Bluebook and Wikipedia differ on the last word only: every token
    that is followed by a word token is converted alike under the two
    styles, with or without a tagger; the last word is capitalized under
    Wikipedia and follows the mid-sentence rules under Bluebook, as in
    "what is it for". *)
Theorem bluebook_wikipedia_differ_on_last_word_only :
  (forall (nlp : option Tagger) (text : jsstring) (pre post : list Token)
          (t : Token),
     tokenize nlp text = pre ++ t :: post ->
     existsb is_word_token post = true ->
     convertToken Bluebook t = convertToken Wikipedia t) /\
  toTitleCase None (str "what is it for") Bluebook = str "What Is It for" /\
  toTitleCase None (str "what is it for") Wikipedia = str "What Is It For".
Proof.
  split; [|split; vm_compute; reflexivity].
  intros nlp text pre post t Hs Hpost.
  assert (Hin : In t (tokenize nlp text)) by (rewrite Hs; apply in_elt).
  destruct (word t) as [w|] eqn:Hw;
    [|rewrite !convertToken_separator by assumption; reflexivity].
  rewrite !(convertToken_tokenized nlp text _ t w Hin Hw).
  destruct (tokenize_flags _ _ _ _ _ Hs (word_is_word_token _ _ Hw))
    as [_ Hl].
  rewrite Hl, Hpost. unfold applyPlainWordRules. cbn [negb andb]. cbv zeta.
  destruct (isFirstWord t); [reflexivity|].
  cbn [andb].
  change (applyStaticRules w (toLowerCase w) Bluebook)
    with (applyBluebookRules w (toLowerCase w)).
  change (applyStaticRules w (toLowerCase w) Wikipedia)
    with (applyWikipediaRules w (toLowerCase w)).
  rewrite applyWikipediaRules_Bluebook.
  destruct (grammaticalFunction t) as [g|]; [|reflexivity].
  rewrite applyNLPAwareRules_Wikipedia_Bluebook. reflexivity.
Qed.

Lemma bluebook_wikipedia_differ_on_last_word_only_witness :
  tokenize None (str "what is it for")
  = firstn 4 (tokenize None (str "what is it for"))
    ++ word_token (str "it") false false
    :: skipn 5 (tokenize None (str "what is it for")) /\
  convertToken Bluebook (word_token (str "it") false false)
  = convertToken Wikipedia (word_token (str "it") false false).
Proof.
  assert (Hs : tokenize None (str "what is it for")
    = firstn 4 (tokenize None (str "what is it for"))
    ++ word_token (str "it") false false
    :: skipn 5 (tokenize None (str "what is it for"))).
  { vm_compute. reflexivity. }
  split; [exact Hs|].
  exact (proj1 bluebook_wikipedia_differ_on_last_word_only None
           (str "what is it for") _ _ _ Hs eq_refl).
Defined.

(** ** The last word under AMA, APA and Bluebook *)

(** X9: under AMA, APA and Bluebook the last word has no rule of its own:
    a word that is not the first one is converted by the mid-sentence rules
    whether or not a word follows it, so that a final article, conjunction
    or short preposition stays in lower case, as in "what is it for" under
    AMA. *)
Theorem last_word_by_mid_sentence_rules :
  (forall (nlp : option Tagger) (text style : jsstring)
          (pre post : list Token) (t : Token) (w : jsstring),
     tokenize nlp text = pre ++ t :: post -> word t = Some w ->
     existsb is_word_token pre = true ->
     has [AMA; APA; Bluebook] style = true ->
     convertToken style t
     = applyMidSentenceRules w (toLowerCase w) style
         (grammaticalFunction t) (posTag t)) /\
  toTitleCase None (str "what is it for") AMA = str "What Is It for" /\
  toTitleCase None (str "what is it for") Chicago = str "What Is It For".
Proof.
  split; [|split; vm_compute; reflexivity].
  intros nlp text style pre post t w Hs Hw Hpre Hstyle.
  apply (convertToken_mid_sentence nlp text style pre post t w Hs Hw Hpre).
  right. assumption.
Qed.

Lemma last_word_by_mid_sentence_rules_witness :
  tokenize None (str "what is it for")
  = firstn 6 (tokenize None (str "what is it for"))
    ++ word_token (str "for") false true :: [] /\
  has [AMA; APA; Bluebook] AMA = true /\
  convertToken AMA (word_token (str "for") false true) = str "for".
Proof.
  assert (Hs : tokenize None (str "what is it for")
    = firstn 6 (tokenize None (str "what is it for"))
    ++ word_token (str "for") false true :: []).
  { vm_compute. reflexivity. }
  split; [exact Hs|]. split; [reflexivity|].
  rewrite (proj1 last_word_by_mid_sentence_rules None
             (str "what is it for") AMA _ _ _ (str "for")
             Hs eq_refl eq_refl eq_refl).
  vm_compute. reflexivity.
Defined.

(** ** The rule engine changes letter case only *)

Lemma applyNLPAwareRules_cases (w style : jsstring) (g : POS)
  (tag : option POS) (r : jsstring) :
  applyNLPAwareRules w (toLowerCase w) g tag style = Some r ->
  r = capitalize w \/ r = toLowerCase w.
Proof.
  unfold applyNLPAwareRules, applyPrepositionRules.
  destruct g; branch_cases; intros H; try discriminate H;
    injection H as <-; auto.
Qed.

Lemma applyPlainWordRules_tagged_cases (w : jsstring)
  (isFirst isLast ac : bool) (style : jsstring) (gf tag : option POS) :
  let r := applyPlainWordRules w (toLowerCase w) isFirst isLast ac style
             gf tag in
  r = capitalize w \/ r = toLowerCase w.
Proof.
  destruct gf as [g|]; [|apply applyPlainWordRules_cases].
  cbv zeta. unfold applyPlainWordRules. cbv zeta.
  destruct isFirst; [auto|].
  destruct (isLast && negb (has [AMA; APA; Bluebook] style)); [auto|].
  destruct (ac && streq style APA); [auto|].
  destruct (applyNLPAwareRules w (toLowerCase w) g tag style) as [r|] eqn:E.
  - apply (applyNLPAwareRules_cases w style g tag r E).
  - apply (applyPlainWordRules_cases w false false false style tag).
Qed.

Lemma split_on_cons (sep : code_unit) (s : jsstring) :
  exists p ps, split_on sep s = p :: ps.
Proof.
  destruct s as [|c s]; simpl; [eauto|].
  destruct (N.eqb c sep); [eauto|].
  destruct (split_on sep s); eauto.
Qed.

Lemma join_split_on (sep : code_unit) (s : jsstring) :
  join [sep] (split_on sep s) = s.
Proof.
  induction s as [|c s IH]; [reflexivity|].
  simpl. destruct (split_on_cons sep s) as (p & ps & E).
  rewrite E in *.
  destruct (N.eqb_spec c sep) as [->|Hne].
  - cbn [join]. cbn [join] in IH. rewrite IH. reflexivity.
  - destruct ps as [|q ps]; simpl in *; rewrite <- IH; reflexivity.
Qed.

Lemma split_on_ascii (sep : code_unit) (s : jsstring) :
  ascii_string s -> Forall ascii_string (split_on sep s).
Proof.
  induction s as [|c s IH]; intros H; [repeat constructor|].
  apply ascii_string_cons in H. destruct H as [Hc Hs].
  specialize (IH Hs). simpl.
  destruct (N.eqb c sep); [constructor; [reflexivity | assumption]|].
  destruct (split_on sep s) as [|p ps]; [repeat constructor|].
  - apply ascii_string_cons. split; [assumption | reflexivity].
  - inversion IH; subst. constructor; [|assumption].
    apply ascii_string_cons. split; assumption.
Qed.

Lemma join_same_up_to_case (ps qs : list jsstring) :
  Forall2 (fun p q => same_up_to_case q p /\ ascii_string q) ps qs ->
  same_up_to_case (join [HYPHEN] qs) (join [HYPHEN] ps) /\
  ascii_string (join [HYPHEN] qs).
Proof.
  induction 1 as [|p q ps qs [[H1 H2] H3] HF IH]; [split; [split|]; reflexivity|].
  destruct IH as [[I1 I2] I3].
  destruct HF as [|p' q' ps' qs' Hpq HF']; cbn [join].
  - split; [split|]; assumption.
  - cbn [join] in I1, I2, I3. unfold same_up_to_case.
    rewrite !toLowerCase_app, !length_app, H1, H2, I1, I2.
    split; [split; reflexivity|].
    apply ascii_string_app. split; [assumption|].
    apply ascii_string_app. split; [reflexivity | assumption].
Qed.

Lemma mapi_from_Forall2 {A B : Type} (R : A -> B -> Prop)
  (f : A -> nat -> B) (P : A -> Prop) (l : list A) (i : nat) :
  (forall x j, P x -> R x (f x j)) -> Forall P l ->
  Forall2 R l (mapi_from i f l).
Proof.
  intros Hf Hl. revert i. induction Hl as [|x l Hx Hl IH]; intros i;
    simpl; constructor; auto.
Qed.

Lemma handleHyphenatedWord_same_up_to_case (w : jsstring)
  (isFirst isLast : bool) (style : jsstring) :
  ascii_string w ->
  same_up_to_case (handleHyphenatedWord w isFirst isLast style) w /\
  ascii_string (handleHyphenatedWord w isFirst isLast style).
Proof.
  intros Ha. unfold handleHyphenatedWord. cbv zeta.
  match goal with
  | |- context [mapi_from 0 ?f _] => set (F := f)
  end.
  assert (HF : Forall2 (fun p q => same_up_to_case q p /\ ascii_string q)
                 (split_on HYPHEN w) (mapi_from 0 F (split_on HYPHEN w))).
  2: { pose proof (join_same_up_to_case _ _ HF) as H.
       rewrite join_split_on in H. exact H. }
  apply (mapi_from_Forall2 _ _ ascii_string);
    [|apply split_on_ascii; assumption].
  intros p j Hp. unfold F.
  destruct (capitalize_ascii p Hp) as (C1 & C2 & C3).
  assert (Hcap : same_up_to_case (capitalize p) p /\
                 ascii_string (capitalize p))
    by (split; [split|]; assumption).
  assert (Hlow : same_up_to_case (toLowerCase p) p /\
                 ascii_string (toLowerCase p)).
  { split; [split|].
    - apply toLowerCase_idem.
    - apply length_toLowerCase.
    - apply ascii_toLowerCase; assumption. }
  branch_cases; assumption.
Qed.

(** X10: on a word of Basic Latin (ASCII) characters the rule engine
    changes letter case only: whatever the position flags, the style, the
    tags and whether or not the word holds hyphens, [applyStyleRules]
    returns a string of the same length that is equal to the word after
    lower-casing, so hyphens and every other character stay in place. *)
Theorem applyStyleRules_changes_case_only (w : jsstring)
  (isFirst isLast ac : bool) (style : jsstring) (gf tag : option POS) :
  ascii_string w ->
  same_up_to_case
    (applyStyleRules w (toLowerCase w) isFirst isLast ac style gf tag) w /\
  ascii_string
    (applyStyleRules w (toLowerCase w) isFirst isLast ac style gf tag).
Proof.
  intros Ha. unfold applyStyleRules.
  destruct (includes_char w HYPHEN).
  - apply handleHyphenatedWord_same_up_to_case. assumption.
  - destruct (capitalize_ascii w Ha) as (C1 & C2 & C3).
    destruct (applyPlainWordRules_tagged_cases w isFirst isLast ac style
                gf tag) as [-> | ->].
    + split; [split|]; assumption.
    + split; [split|].
      * apply toLowerCase_idem.
      * apply length_toLowerCase.
      * apply ascii_toLowerCase; assumption.
Qed.

Lemma applyStyleRules_changes_case_only_witness :
  ascii_string (str "run-THROUGH-it") /\
  same_up_to_case
    (applyStyleRules (str "run-THROUGH-it")
       (toLowerCase (str "run-THROUGH-it")) true false false Chicago
       None None)
    (str "run-THROUGH-it") /\
  applyStyleRules (str "run-THROUGH-it")
    (toLowerCase (str "run-THROUGH-it")) true false false Chicago None None
  = str "Run-through-It".
Proof.
  split; [reflexivity|]. split; [|vm_compute; reflexivity].
  exact (proj1 (applyStyleRules_changes_case_only (str "run-THROUGH-it")
                  true false false Chicago None None eq_refl)).
Defined.

(** ** Hyphenated words *)

Lemma mapi_from_map {A B : Type} (f : A -> nat -> B) (g : A -> B)
  (l : list A) (i : nat) :
  (forall x j, f x j = g x) -> mapi_from i f l = map g l.
Proof.
  intros H. revert i. induction l as [|x l IH]; intros i; simpl;
    [reflexivity|].
  rewrite H, IH. reflexivity.
Qed.

(** X11: [handleHyphenatedWord] has rules of its own for Chicago and MLA
    only: under every other style (AMA, AP, APA, Bluebook, "New York
    Times", Wikipedia or an unknown one) it capitalizes every part of the
    word between hyphens, whatever the part and the position of the
    word. *)
Theorem handleHyphenatedWord_capitalizes_parts (w : jsstring)
  (isFirst isLast : bool) (style : jsstring) :
  streq style Chicago = false -> streq style MLA = false ->
  handleHyphenatedWord w isFirst isLast style
  = join [HYPHEN] (map capitalize (split_on HYPHEN w)).
Proof.
  intros HC HM. unfold handleHyphenatedWord. cbv zeta. f_equal.
  apply mapi_from_map. intros p j. rewrite HC, HM.
  branch_cases; reflexivity.
Qed.

Lemma handleHyphenatedWord_capitalizes_parts_witness :
  streq Wikipedia Chicago = false /\ streq Wikipedia MLA = false /\
  handleHyphenatedWord (str "state-of-the-art") false false Wikipedia
  = str "State-Of-The-Art".
Proof.
  split; [reflexivity|]. split; [reflexivity|].
  rewrite (handleHyphenatedWord_capitalizes_parts (str "state-of-the-art")
             false false Wikipedia eq_refl eq_refl).
  vm_compute. reflexivity.
Defined.

(** ** The classifier *)

(** X12: [determineGrammaticalFunction] departs from the tag of
    [getPOSTag] in three cases only: an ambiguous particle (in, out, up,
    on, off, down, by, over) in a phrasal verb becomes an adverb, the
    single letter "a" flagged as an acronym becomes a noun, and "to"
    before a verb becomes the "to" of an infinitive. *)
Theorem determineGrammaticalFunction_overrides (word : jsstring)
  (term : Term) (tag : option POS) :
  determineGrammaticalFunction word term tag <> tag ->
  (has ambiguousWords (toLowerCase word) = true /\
   hasPhrasalVerb term = true /\
   determineGrammaticalFunction word term tag = Some adverb) \/
  (toLowerCase word = str "a" /\ length word = 1 /\
   hasAcronym term = true /\
   determineGrammaticalFunction word term tag = Some noun) \/
  (toLowerCase word = str "to" /\ nextHasVerb term = true /\
   determineGrammaticalFunction word term tag = Some infinitive).
Proof.
  unfold determineGrammaticalFunction. cbv zeta.
  destruct (has ambiguousWords (toLowerCase word)) eqn:Ea;
  destruct (streq (toLowerCase word) (str "a")) eqn:Eb;
  destruct (length word =? 1) eqn:El;
  destruct (streq (toLowerCase word) (str "to")) eqn:Et;
  destruct (hasPhrasalVerb term) eqn:Ep;
  destruct (hasAcronym term) eqn:Ec;
  destruct (nextHasVerb term) eqn:En;
  try (apply streq_eq in Eb); try (apply streq_eq in Et);
  try (apply Nat.eqb_eq in El);
  destruct tag as [[]|]; cbn; intros H; try congruence; auto 10.
Qed.

Lemma determineGrammaticalFunction_overrides_witness :
  determineGrammaticalFunction (str "to")
    {| hasVerb := false; hasNoun := false; hasAdjective := false;
       hasAdverb := false; hasPreposition := true; hasConjunction := false;
       hasArticle := false; hasPronoun := false; hasPhrasalVerb := false;
       hasAcronym := false; nextHasVerb := true;
             nextThrows := false |} (Some preposition)
  <> Some preposition /\
  toLowerCase (str "to") = str "to" /\
  determineGrammaticalFunction (str "to")
    {| hasVerb := false; hasNoun := false; hasAdjective := false;
       hasAdverb := false; hasPreposition := true; hasConjunction := false;
       hasArticle := false; hasPronoun := false; hasPhrasalVerb := false;
       hasAcronym := false; nextHasVerb := true;
             nextThrows := false |} (Some preposition)
  = Some infinitive.
Proof.
  assert (Hne : determineGrammaticalFunction (str "to")
    {| hasVerb := false; hasNoun := false; hasAdjective := false;
       hasAdverb := false; hasPreposition := true; hasConjunction := false;
       hasArticle := false; hasPronoun := false; hasPhrasalVerb := false;
       hasAcronym := false; nextHasVerb := true;
             nextThrows := false |} (Some preposition)
    <> Some preposition) by (vm_compute; discriminate).
  split; [exact Hne|].
  destruct (determineGrammaticalFunction_overrides _ _ _ Hne)
    as [(H & _ & _) | [(H & _ & _ & _) | (H1 & _ & H2)]].
  - vm_compute in H. discriminate H.
  - vm_compute in H. discriminate H.
  - split; assumption.
Defined.

(** ** Smart quotes *)

Example convertQuotesInText_sentence :
  convertQuotesInText
    (str "she said " ++ [DQUOTE] ++ str "it's 'fine'" ++ [DQUOTE]
     ++ str " (" ++ [DQUOTE] ++ str "ok" ++ [DQUOTE] ++ str ")")
  = str "she said " ++ [LDQUO] ++ str "it" ++ [RSQUO] ++ str "s "
    ++ [LSQUO] ++ str "fine" ++ [RSQUO; RDQUO] ++ str " (" ++ [LDQUO]
    ++ str "ok" ++ [RDQUO] ++ str ")".
Proof. vm_compute. reflexivity. Qed.

Lemma swap_refl (q r c : code_unit) : swap q r c c.
Proof. left; reflexivity. Qed.

Lemma swap_quote (q r : code_unit) : swap q r q r.
Proof. right; split; reflexivity. Qed.

Lemma Forall2_swap_refl (q r : code_unit) (s : jsstring) :
  Forall2 (swap q r) s s.
Proof. induction s; constructor; [apply swap_refl | assumption]. Qed.

Lemma replace_opening_swap (q r : code_unit) (n : nat) :
  forall (s : jsstring) (start : bool),
    length s <= n ->
    Forall2 (swap q r) s (replace_opening q r start s).
Proof.
  induction n as [|n IH]; intros s start Hlen.
  { destruct s; [constructor | simpl in Hlen; lia]. }
  destruct s as [|a [|b s2]]; [constructor | apply Forall2_swap_refl |].
  cbn [replace_opening].
  destruct (start && N.eqb a q && is_non_space b) eqn:E1.
  { apply andb_true_iff in E1. destruct E1 as [E1 _].
    apply andb_true_iff in E1. destruct E1 as [_ E1].
    apply N.eqb_eq in E1. subst a.
    constructor; [apply swap_quote|].
    constructor; [apply swap_refl|].
    apply IH. simpl in Hlen. lia. }
  assert (Hrest : Forall2 (swap q r) (a :: b :: s2)
                    (a :: replace_opening q r false (b :: s2))).
  { constructor; [apply swap_refl|]. apply IH. simpl in Hlen |- *. lia. }
  destruct s2 as [|c s3]; [exact Hrest|].
  destruct (is_opener a && N.eqb b q && is_non_space c) eqn:E2.
  { apply andb_true_iff in E2. destruct E2 as [E2 _].
    apply andb_true_iff in E2. destruct E2 as [_ E2].
    apply N.eqb_eq in E2. subst b.
    constructor; [apply swap_refl|].
    constructor; [apply swap_quote|].
    constructor; [apply swap_refl|].
    apply IH. simpl in Hlen. lia. }
  destruct s3 as [|d s4]; [exact Hrest|].
  destruct (N.eqb a HYPHEN && N.eqb b HYPHEN && N.eqb c q && is_non_space d)
    eqn:E3; [|exact Hrest].
  apply andb_true_iff in E3. destruct E3 as [E3 _].
  apply andb_true_iff in E3. destruct E3 as [_ E3].
  apply N.eqb_eq in E3. subst c.
  constructor; [apply swap_refl|].
  constructor; [apply swap_refl|].
  constructor; [apply swap_quote|].
  constructor; [apply swap_refl|].
  apply IH. simpl in Hlen. lia.
Qed.

Lemma replace_closing_swap (n : nat) :
  forall s : jsstring,
    length s <= n -> Forall2 (swap DQUOTE RDQUO) s (replace_closing s).
Proof.
  induction n as [|n IH]; intros s Hlen.
  { destruct s; [constructor | simpl in Hlen; lia]. }
  destruct s as [|a [|b s2]]; [constructor | apply Forall2_swap_refl |].
  cbn [replace_closing].
  destruct (is_non_space a && N.eqb b DQUOTE) eqn:E.
  - apply andb_true_iff in E. destruct E as [_ E].
    apply N.eqb_eq in E. subst b.
    constructor; [apply swap_refl|].
    constructor; [apply swap_quote|].
    apply IH. simpl in Hlen. lia.
  - constructor; [apply swap_refl|]. apply IH. simpl in Hlen |- *. lia.
Qed.

Lemma replace_apostrophe_swap (n : nat) :
  forall s : jsstring,
    length s <= n -> Forall2 (swap SQUOTE RSQUO) s (replace_apostrophe s).
Proof.
  induction n as [|n IH]; intros s Hlen.
  { destruct s; [constructor | simpl in Hlen; lia]. }
  destruct s as [|a [|b s2]]; [constructor | apply Forall2_swap_refl |].
  cbn [replace_apostrophe].
  assert (Hrest : Forall2 (swap SQUOTE RSQUO) (a :: b :: s2)
                    (a :: replace_apostrophe (b :: s2))).
  { constructor; [apply swap_refl|]. apply IH. simpl in Hlen |- *. lia. }
  destruct s2 as [|c s3]; [exact Hrest|].
  destruct (is_word_class a && N.eqb b SQUOTE && is_word_class c) eqn:E;
    [|exact Hrest].
  apply andb_true_iff in E. destruct E as [E _].
  apply andb_true_iff in E. destruct E as [_ E].
  apply N.eqb_eq in E. subst b.
  constructor; [apply swap_refl|].
  constructor; [apply swap_quote|].
  constructor; [apply swap_refl|].
  apply IH. simpl in Hlen. lia.
Qed.

Lemma replace_single_swap (s : jsstring) :
  Forall2 (swap SQUOTE RSQUO) s (replace_single s).
Proof.
  induction s as [|c s IH]; simpl; constructor; [|assumption].
  destruct (N.eqb_spec c SQUOTE) as [->|_];
    [apply swap_quote | apply swap_refl].
Qed.

Lemma Forall2_compose {A : Type} (R1 R2 R3 : A -> A -> Prop)
  (a b c : list A) :
  (forall x y z, R1 x y -> R2 y z -> R3 x z) ->
  Forall2 R1 a b -> Forall2 R2 b c -> Forall2 R3 a c.
Proof.
  intros H H1. revert c. induction H1 as [|x y a b Hxy H1 IH]; intros c H2;
    inversion H2; subst; constructor; eauto.
Qed.

Lemma quote_change_refl (c : code_unit) : quote_change c c.
Proof. left; reflexivity. Qed.

Lemma quote_change_swap (q r c c' c'' : code_unit) :
  (q = DQUOTE /\ (r = LDQUO \/ r = RDQUO)) \/
  (q = SQUOTE /\ (r = LSQUO \/ r = RSQUO)) ->
  quote_change c c' -> swap q r c' c'' -> quote_change c c''.
Proof.
  unfold quote_change, swap, DQUOTE, SQUOTE, LDQUO, RDQUO, LSQUO, RSQUO.
  intros Hq H1 H2.
  destruct H2 as [-> | [-> ->]]; [assumption|].
  destruct H1 as [-> | [[-> H1] | [-> H1]]].
  - destruct Hq as [[-> [-> | ->]] | [-> [-> | ->]]]; auto 6.
  - exfalso. destruct Hq as [[-> _] | [-> _]], H1 as [H1 | H1];
      discriminate H1.
  - exfalso. destruct Hq as [[-> _] | [-> _]], H1 as [H1 | H1];
      discriminate H1.
Qed.

Lemma convertQuotesInText_change (text : jsstring) :
  Forall2 quote_change text (convertQuotesInText text).
Proof.
  unfold convertQuotesInText.
  pose proof (replace_opening_swap DQUOTE LDQUO (length text) text true
                (le_n _)) as H1.
  set (t1 := replace_opening DQUOTE LDQUO true text) in *.
  pose proof (replace_closing_swap (length t1) t1 (le_n _)) as H2.
  set (t2 := replace_closing t1) in *.
  pose proof (replace_apostrophe_swap (length t2) t2 (le_n _)) as H3.
  set (t3 := replace_apostrophe t2) in *.
  pose proof (replace_opening_swap SQUOTE LSQUO (length t3) t3 true
                (le_n _)) as H4.
  set (t4 := replace_opening SQUOTE LSQUO true t3) in *.
  pose proof (replace_single_swap t4) as H5.
  assert (H0 : Forall2 quote_change text text).
  { clear. induction text as [|c text IH]; constructor;
      [apply quote_change_refl | assumption]. }
  assert (G1 : Forall2 quote_change text t1).
  { apply (Forall2_compose quote_change (swap DQUOTE LDQUO) quote_change
             text text t1); [|assumption|assumption].
    intros x y z. apply quote_change_swap. auto. }
  assert (G2 : Forall2 quote_change text t2).
  { apply (Forall2_compose quote_change (swap DQUOTE RDQUO) quote_change
             text t1 t2); [|assumption|assumption].
    intros x y z. apply quote_change_swap. auto. }
  assert (G3 : Forall2 quote_change text t3).
  { apply (Forall2_compose quote_change (swap SQUOTE RSQUO) quote_change
             text t2 t3); [|assumption|assumption].
    intros x y z. apply quote_change_swap. auto. }
  assert (G4 : Forall2 quote_change text t4).
  { apply (Forall2_compose quote_change (swap SQUOTE LSQUO) quote_change
             text t3 t4); [|assumption|assumption].
    intros x y z. apply quote_change_swap. auto. }
  apply (Forall2_compose quote_change (swap SQUOTE RSQUO) quote_change
           text t4 _); [|assumption|assumption].
  intros x y z. apply quote_change_swap. auto.
Qed.

Lemma starts_with_length (needle s : jsstring) :
  starts_with needle s = true -> length needle <= length s.
Proof.
  revert s. induction needle as [|n needle IH]; intros [|c s]; simpl;
    try discriminate; try lia.
  rewrite andb_true_iff. intros [_ H]. apply IH in H. lia.
Qed.

Lemma find_first_bound (needle s : jsstring) (a : nat) :
  find_first needle s = Some a -> a + length needle <= length s.
Proof.
  revert a. induction s as [|c s IH]; intros a; simpl.
  - destruct (starts_with needle []) eqn:E; [|discriminate].
    intros H. injection H as <-. apply starts_with_length in E. simpl in *.
    lia.
  - destruct (starts_with needle (c :: s)) eqn:E.
    + intros H. injection H as <-. apply starts_with_length in E.
      simpl in *. lia.
    + destruct (find_first needle s) as [a'|]; [|discriminate].
      simpl. intros H. injection H as <-. specialize (IH a' eq_refl).
      simpl. lia.
Qed.

Lemma substring_skipn (text : jsstring) (i j : nat) :
  i <= j -> skipn i text = substring text i j ++ skipn j text.
Proof.
  intros H. unfold substring.
  rewrite <- (firstn_skipn (j - i) (skipn i text)) at 1.
  rewrite skipn_skipn. replace (j - i + i) with j by lia. reflexivity.
Qed.

Lemma substring_length (text : jsstring) (i j : nat) :
  i <= j -> j <= length text -> length (substring text i j) = j - i.
Proof.
  intros H1 H2. unfold substring.
  rewrite length_firstn, length_skipn. lia.
Qed.

(** A code block lies within the text, after [lastIndex], and holds at
    least the two fences. *)
Lemma codeBlock_exec_Some (text : jsstring) (i index : nat) (m : jsstring) :
  codeBlock_exec text i = Some (index, m) -> i <= length text ->
  i <= index /\ 6 <= length m /\ index + length m <= length text /\
  m = substring text index (index + length m).
Proof.
  unfold codeBlock_exec. intros H Hi.
  destruct (find_first FENCE (skipn i text)) as [a|] eqn:Ea; [|discriminate].
  cbv zeta in H.
  destruct (find_first FENCE (skipn (i + a + 3) text)) as [b|] eqn:Eb;
    [|discriminate].
  injection H as <- <-.
  apply find_first_bound in Ea, Eb.
  rewrite length_skipn in Ea, Eb. simpl in Ea, Eb.
  assert (Hl : length (substring text (i + a) (i + a + 3 + b + 3)) = 6 + b)
    by (rewrite substring_length; lia).
  rewrite Hl. repeat split; try lia.
  f_equal. lia.
Qed.

Lemma smartQuotes_parts_concat (fuel : nat) (text : jsstring) (i : nat) :
  i <= length text -> length text - i < fuel ->
  concat (map part_text (smartQuotes_parts fuel text i)) = skipn i text.
Proof.
  revert i. induction fuel as [|fuel IH]; intros i Hi Hf; [lia|].
  simpl. destruct (codeBlock_exec text i) as [[index m]|] eqn:E.
  - destruct (codeBlock_exec_Some _ _ _ _ E Hi) as (H1 & H2 & H3 & H4).
    rewrite map_app, concat_app. simpl. rewrite IH by lia.
    rewrite (substring_skipn text i index H1).
    rewrite (substring_skipn text index (index + length m)) by lia.
    rewrite <- H4. f_equal.
    destruct (Nat.ltb_spec i index); simpl; [apply app_nil_r|].
    unfold substring. replace (index - i) with 0 by lia. reflexivity.
  - destruct (Nat.ltb_spec i (length text)); simpl.
    + apply app_nil_r.
    + symmetry. apply skipn_all2. lia.
Qed.

Lemma Forall2_quote_change_refl (s : jsstring) : Forall2 quote_change s s.
Proof.
  induction s; constructor; [apply quote_change_refl | assumption].
Qed.

Lemma convertPart_change (part : Part) :
  Forall2 quote_change (part_text part) (convertPart part).
Proof.
  unfold convertPart. destruct (isCodeBlock part).
  - apply Forall2_quote_change_refl.
  - apply convertQuotesInText_change.
Qed.

Lemma quote_change_no_quotes (s s' : jsstring) :
  Forall2 quote_change s s' ->
  ~ In DQUOTE s -> ~ In SQUOTE s -> s' = s.
Proof.
  induction 1 as [|c c' s s' Hc HF IH]; intros Hd Hs; [reflexivity|].
  simpl in Hd, Hs. rewrite IH by tauto. f_equal.
  destruct Hc as [-> | [[-> _] | [-> _]]]; tauto.
Qed.

(** X13: [processSmartQuotes] changes quote characters only, and in
    place: the output has the length of the text and holds, at every
    position, the character of the text, or a left or right curly double
    quote where the text has a straight double quote, or a left or right
    curly single quote where it has a straight single quote; a text with
    no straight quote is returned unchanged. *)
Theorem processSmartQuotes_changes_quotes_only (text : jsstring) :
  Forall2 quote_change text (processSmartQuotes text) /\
  length (processSmartQuotes text) = length text /\
  (~ In DQUOTE text -> ~ In SQUOTE text -> processSmartQuotes text = text).
Proof.
  assert (H : Forall2 quote_change text (processSmartQuotes text)).
  { unfold processSmartQuotes.
    rewrite <- (smartQuotes_parts_concat (S (length text)) text 0) at 1
      by lia.
    induction (smartQuotes_parts (S (length text)) text 0) as [|p ps IH];
      simpl; [constructor|].
    apply Forall2_app; [apply convertPart_change | assumption]. }
  split; [assumption|]. split.
  - symmetry. apply (Forall2_length H).
  - apply quote_change_no_quotes. assumption.
Qed.

Lemma processSmartQuotes_changes_quotes_only_witness :
  ~ In DQUOTE (str "a `b` c") /\ ~ In SQUOTE (str "a `b` c") /\
  processSmartQuotes (str "a `b` c") = str "a `b` c".
Proof.
  assert (H1 : ~ In DQUOTE (str "a `b` c"))
    by (vm_compute; intuition discriminate).
  assert (H2 : ~ In SQUOTE (str "a `b` c"))
    by (vm_compute; intuition discriminate).
  split; [exact H1|]. split; [exact H2|].
  exact (proj2 (proj2 (processSmartQuotes_changes_quotes_only
                         (str "a `b` c"))) H1 H2).
Defined.

(** *** Code blocks *)

Lemma starts_with_app (needle s x : jsstring) :
  length needle <= length s ->
  starts_with needle (s ++ x) = starts_with needle s.
Proof.
  revert s. induction needle as [|n needle IH]; intros [|c s] H;
    simpl in *; try reflexivity; try lia.
  rewrite IH by lia. reflexivity.
Qed.

(** When [a] followed by two backticks holds no fence, the first fence of
    [a ++ FENCE ++ x] is the one after [a]. *)
Lemma find_first_fence (a x : jsstring) :
  find_first FENCE (a ++ [BACKTICK; BACKTICK]) = None ->
  find_first FENCE (a ++ FENCE ++ x) = Some (length a).
Proof.
  induction a as [|c a IH]; intros H; [reflexivity|].
  cbn [app find_first] in H.
  destruct (starts_with FENCE (c :: a ++ [BACKTICK; BACKTICK])) eqn:E;
    [discriminate|].
  destruct (find_first FENCE (a ++ [BACKTICK; BACKTICK])) eqn:Ef;
    [discriminate|].
  assert (Hs : starts_with FENCE (c :: a ++ FENCE ++ x) = false).
  { replace (c :: a ++ FENCE ++ x)
      with ((c :: a ++ [BACKTICK; BACKTICK]) ++ (BACKTICK :: x))
      by (simpl; rewrite <- app_assoc; reflexivity).
    rewrite starts_with_app; [exact E|].
    simpl. rewrite length_app. simpl. lia. }
  cbn [app find_first length].
  rewrite Hs, IH by reflexivity. reflexivity.
Qed.

Lemma skipn_app_shift {A : Type} (pre l : list A) (i : nat) :
  skipn (length pre + i) (pre ++ l) = skipn i l.
Proof.
  rewrite skipn_app, skipn_all2 by lia.
  replace (length pre + i - length pre) with i by lia. reflexivity.
Qed.

Lemma substring_app_shift (pre text : jsstring) (i j : nat) :
  substring (pre ++ text) (length pre + i) (length pre + j)
  = substring text i j.
Proof.
  unfold substring. rewrite skipn_app_shift. f_equal. lia.
Qed.

Lemma codeBlock_exec_shift (pre text : jsstring) (i : nat) :
  codeBlock_exec (pre ++ text) (length pre + i)
  = match codeBlock_exec text i with
    | Some (index, m) => Some (length pre + index, m)
    | None => None
    end.
Proof.
  unfold codeBlock_exec. rewrite skipn_app_shift.
  destruct (find_first FENCE (skipn i text)) as [a|]; [|reflexivity].
  cbv zeta.
  replace (length pre + i + a + 3) with (length pre + (i + a + 3)) by lia.
  rewrite skipn_app_shift.
  destruct (find_first FENCE (skipn (i + a + 3) text)) as [b|];
    [|reflexivity].
  replace (length pre + i + a) with (length pre + (i + a)) by lia.
  replace (length pre + (i + a + 3) + b + 3)
    with (length pre + (i + a + 3 + b + 3)) by lia.
  rewrite substring_app_shift. reflexivity.
Qed.

Lemma smartQuotes_parts_shift (fuel : nat) (pre text : jsstring) (i : nat) :
  smartQuotes_parts fuel (pre ++ text) (length pre + i)
  = smartQuotes_parts fuel text i.
Proof.
  revert i. induction fuel as [|fuel IH]; intros i; [reflexivity|].
  simpl. rewrite codeBlock_exec_shift.
  destruct (codeBlock_exec text i) as [[index m]|].
  - replace (length pre + index + length m)
      with (length pre + (index + length m)) by lia.
    rewrite IH, substring_app_shift.
    replace (length pre + i <? length pre + index) with (i <? index);
      [reflexivity|].
    destruct (Nat.ltb_spec i index);
      [symmetry; apply Nat.ltb_lt | symmetry; apply Nat.ltb_ge]; lia.
  - rewrite skipn_app_shift, length_app.
    replace (length pre + i <? length pre + length text)
      with (i <? length text); [reflexivity|].
    destruct (Nat.ltb_spec i (length text));
      [symmetry; apply Nat.ltb_lt | symmetry; apply Nat.ltb_ge]; lia.
Qed.

Lemma smartQuotes_parts_fuel (f1 f2 : nat) (text : jsstring) (i : nat) :
  i <= length text -> length text - i < f1 -> length text - i < f2 ->
  smartQuotes_parts f1 text i = smartQuotes_parts f2 text i.
Proof.
  revert f2 i. induction f1 as [|f1 IH]; intros f2 i Hi H1 H2; [lia|].
  destruct f2 as [|f2]; [lia|].
  simpl. destruct (codeBlock_exec text i) as [[index m]|] eqn:E;
    [|reflexivity].
  destruct (codeBlock_exec_Some _ _ _ _ E Hi) as (G1 & G2 & G3 & _).
  rewrite (IH f2 (index + length m)) by lia. reflexivity.
Qed.

(** X14: [processSmartQuotes] copies fenced code blocks verbatim.  When
    the first fence of the text closes the stretch [a] and the next fence
    closes the stretch [inside], the quotes of [a] are converted, the
    block from fence to fence is copied unchanged, straight quotes
    included, and the rest of the text is processed in the same way; when
    the text has no fence, or no second fence after the first, the whole
    text is converted, the unclosed fence included. *)
Theorem processSmartQuotes_code_blocks :
  (forall a inside b : jsstring,
     find_first FENCE (a ++ [BACKTICK; BACKTICK]) = None ->
     find_first FENCE (inside ++ [BACKTICK; BACKTICK]) = None ->
     processSmartQuotes (a ++ FENCE ++ inside ++ FENCE ++ b)
     = convertQuotesInText a ++ FENCE ++ inside ++ FENCE
       ++ processSmartQuotes b) /\
  (forall text : jsstring,
     match find_first FENCE text with
     | None => True
     | Some p => find_first FENCE (skipn (p + 3) text) = None
     end ->
     processSmartQuotes text = convertQuotesInText text).
Proof.
  split.
  - intros a inside b Ha Hi.
    set (text := a ++ FENCE ++ inside ++ FENCE ++ b).
    assert (Hexec : codeBlock_exec text 0
                    = Some (length a, FENCE ++ inside ++ FENCE)).
    { unfold codeBlock_exec. cbn [skipn]. unfold text.
      rewrite (find_first_fence a _ Ha). cbv zeta. cbn [Nat.add].
      replace (skipn (length a + 3) (a ++ FENCE ++ inside ++ FENCE ++ b))
        with (inside ++ FENCE ++ b).
      2: { replace (length a + 3) with (length (a ++ FENCE) + 0)
             by (rewrite length_app; change (length FENCE) with 3; lia).
           rewrite (app_assoc a FENCE), skipn_app_shift. reflexivity. }
      rewrite (find_first_fence inside _ Hi).
      f_equal. f_equal.
      replace (length a + 3 + length inside + 3)
        with (length a + length (FENCE ++ inside ++ FENCE))
        by (rewrite !length_app; change (length FENCE) with 3; lia).
      unfold substring.
      replace (skipn (length a) (a ++ FENCE ++ inside ++ FENCE ++ b))
        with (FENCE ++ inside ++ FENCE ++ b)
        by (rewrite <- (Nat.add_0_r (length a)), skipn_app_shift;
            reflexivity).
      replace (length a + length (FENCE ++ inside ++ FENCE) - length a)
        with (length (FENCE ++ inside ++ FENCE)) by lia.
      replace (FENCE ++ inside ++ FENCE ++ b)
        with ((FENCE ++ inside ++ FENCE) ++ b)
        by (rewrite <- !app_assoc; reflexivity).
      rewrite firstn_app, Nat.sub_diag, firstn_all.
      simpl. rewrite app_nil_r. reflexivity. }
    unfold processSmartQuotes. fold text.
    cbn [smartQuotes_parts]. rewrite Hexec.
    rewrite map_app, concat_app. cbn [map concat].
    assert (Hrest : smartQuotes_parts (length text) text
                      (length a + length (FENCE ++ inside ++ FENCE))
                    = smartQuotes_parts (S (length b)) b 0).
    { replace (length a + length (FENCE ++ inside ++ FENCE))
        with (length (a ++ FENCE ++ inside ++ FENCE) + 0)
        by (rewrite !length_app; simpl; lia).
      unfold text.
      replace (a ++ FENCE ++ inside ++ FENCE ++ b)
        with ((a ++ FENCE ++ inside ++ FENCE) ++ b)
        by (rewrite <- !app_assoc; reflexivity).
      rewrite smartQuotes_parts_shift.
      apply smartQuotes_parts_fuel; rewrite ?length_app; simpl; lia. }
    rewrite Hrest. unfold convertPart at 2. cbn [isCodeBlock part_text].
    rewrite <- !app_assoc. f_equal.
    destruct a as [|c a']; [reflexivity|].
    change (0 <? length (c :: a')) with true. cbn [map concat].
    unfold convertPart. cbn [isCodeBlock part_text].
    rewrite app_nil_r. f_equal. unfold substring. cbn [skipn].
    rewrite Nat.sub_0_r. unfold text.
    rewrite firstn_app, Nat.sub_diag, firstn_all.
    cbn [firstn]. apply app_nil_r.
  - intros text H.
    assert (Hexec : codeBlock_exec text 0 = None).
    { unfold codeBlock_exec. cbn [skipn].
      destruct (find_first FENCE text) as [p|]; [|reflexivity].
      cbv zeta. cbn [Nat.add]. rewrite H. reflexivity. }
    unfold processSmartQuotes. cbn [smartQuotes_parts]. rewrite Hexec.
    destruct text as [|c text']; [reflexivity|].
    cbn [length Nat.ltb Nat.leb map concat skipn].
    unfold convertPart. cbn [isCodeBlock part_text].
    apply app_nil_r.
Qed.

Lemma processSmartQuotes_code_blocks_witness :
  find_first FENCE (str "it's " ++ [BACKTICK; BACKTICK]) = None /\
  find_first FENCE (str "it's" ++ [BACKTICK; BACKTICK]) = None /\
  processSmartQuotes
    (str "it's " ++ FENCE ++ str "it's" ++ FENCE ++ str " 'so'")
  = str "it" ++ [RSQUO] ++ str "s " ++ FENCE ++ str "it's" ++ FENCE
    ++ str " " ++ [LSQUO] ++ str "so" ++ [RSQUO].
Proof.
  split; [reflexivity|]. split; [reflexivity|].
  rewrite (proj1 processSmartQuotes_code_blocks (str "it's ") (str "it's")
             (str " 'so'") eq_refl eq_refl).
  vm_compute. reflexivity.
Defined.

(** ** Rich text toolbar *)

Example getWordAtCursor_middle :
  getWordAtCursor (str "make **bold** text") 8 = str "**bold**".
Proof. vm_compute. reflexivity. Qed.

Example getWordAtCursor_between_spaces :
  getWordAtCursor (str "a  b") 2 = [].
Proof. vm_compute. reflexivity. Qed.

Example applyHeading_replaces :
  applyHeading (str "## Title") (heading 3) = str "### Title".
Proof. vm_compute. reflexivity. Qed.

Example applyHeading_seven_hashes :
  applyHeading (str "####### x") (heading 1) = str "# ####### x".
Proof. vm_compute. reflexivity. Qed.

Lemma word_start_spec (line : jsstring) (pos : nat) :
  word_start line pos <= pos /\
  (word_start line pos = 0 \/
   is_space_at line (word_start line pos - 1) = true) /\
  (forall k, word_start line pos <= k -> k < pos ->
             is_space_at line k = false).
Proof.
  induction pos as [|k IH]; simpl.
  - split; [lia|]. split; [left; reflexivity | intros; lia].
  - destruct (is_space_at line k) eqn:E.
    + split; [lia|]. split; [right; simpl; rewrite Nat.sub_0_r; assumption|].
      intros; lia.
    + destruct IH as (H1 & H2 & H3). split; [lia|]. split; [assumption|].
      intros j Hj1 Hj2. destruct (Nat.eq_dec j k) as [->|Hne];
        [assumption | apply H3; lia].
Qed.

Lemma word_end_spec (fuel : nat) (line : jsstring) (e : nat) :
  length line - e <= fuel ->
  e <= word_end fuel line e /\
  (e <= length line -> word_end fuel line e <= length line) /\
  (length line <= word_end fuel line e \/
   is_space_at line (word_end fuel line e) = true) /\
  (forall k, e <= k -> k < word_end fuel line e ->
             is_space_at line k = false).
Proof.
  revert e. induction fuel as [|fuel IH]; intros e Hf; simpl.
  - split; [lia|]. split; [auto|]. split; [left; lia | intros; lia].
  - destruct (Nat.ltb_spec e (length line)) as [Hlt|Hge]; simpl.
    + destruct (is_space_at line e) eqn:E; simpl.
      * split; [lia|]. split; [auto|]. split; [right; assumption|].
        intros; lia.
      * destruct (IH (S e)) as (H1 & H2 & H3 & H4); [lia|].
        split; [lia|]. split; [intros; apply H2; lia|].
        split; [assumption|].
        intros k Hk1 Hk2. destruct (Nat.eq_dec k e) as [->|Hne];
          [assumption | apply H4; lia].
    + split; [lia|]. split; [auto|]. split; [left; lia | intros; lia].
Qed.

(** X15: for a cursor within the line, [getWordAtCursor] returns the
    stretch of the line around the cursor that holds no white space and
    cannot be extended: the line is [before ++ word ++ after] with the
    cursor within or at an end of the word, [before] empty or ending with
    a white space character and [after] empty or starting with one.  The
    word is empty when the cursor stands between white space characters
    or line ends. *)
Theorem getWordAtCursor_maximal (line : jsstring) (pos : nat) :
  pos <= length line ->
  exists before after,
    line = before ++ getWordAtCursor line pos ++ after /\
    length before <= pos /\
    pos <= length before + length (getWordAtCursor line pos) /\
    forallb is_non_space (getWordAtCursor line pos) = true /\
    (forall b c, before = b ++ [c] -> is_white_space c = true) /\
    (forall c a, after = c :: a -> is_white_space c = true).
Proof.
  intros Hpos. unfold getWordAtCursor.
  destruct (word_start_spec line pos) as (S1 & S2 & S3).
  destruct (word_end_spec (length line) line pos) as (E1 & E2 & E3 & E4);
    [lia|].
  specialize (E2 Hpos).
  set (s := word_start line pos) in *.
  set (e := word_end (length line) line pos) in *.
  exists (firstn s line), (skipn e line).
  assert (Hls : length (firstn s line) = s)
    by (rewrite length_firstn; lia).
  assert (Hlw : length (substring line s e) = e - s)
    by (apply substring_length; lia).
  split.
  { rewrite <- (substring_skipn line s e) by lia.
    symmetry. apply firstn_skipn. }
  split; [lia|]. split; [lia|]. split; [|split].
  - apply forallb_forall. intros c Hc.
    apply In_nth_error in Hc. destruct Hc as [j Hj].
    assert (Hjlt : j < e - s).
    { rewrite <- Hlw. apply nth_error_Some. congruence. }
    unfold substring in Hj.
    rewrite nth_error_firstn in Hj.
    destruct (Nat.ltb_spec j (e - s)); [|lia].
    rewrite nth_error_skipn in Hj.
    specialize (E4 (s + j)). specialize (S3 (s + j)).
    unfold is_space_at in E4, S3. rewrite Hj in E4, S3.
    unfold is_non_space. apply negb_true_iff.
    destruct (Nat.lt_ge_cases (s + j) pos); [apply S3 | apply E4]; lia.
  - intros b c Hb.
    assert (Hs : s = length b + 1)
      by (rewrite <- Hls, Hb, length_app; reflexivity).
    destruct S2 as [S2 | S2]; [lia|].
    unfold is_space_at in S2.
    replace (s - 1) with (length b) in S2 by lia.
    assert (Hn : nth_error line (length b) = Some c).
    { rewrite <- (firstn_skipn s line), Hb, <- app_assoc.
      rewrite nth_error_app2 by lia. rewrite Nat.sub_diag. reflexivity. }
    rewrite Hn in S2. assumption.
  - intros c a Ha.
    assert (Hn : nth_error line e = Some c).
    { rewrite <- (Nat.add_0_r e), <- nth_error_skipn, Ha. reflexivity. }
    destruct E3 as [E3 | E3].
    + apply nth_error_None in E3. congruence.
    + unfold is_space_at in E3. rewrite Hn in E3. assumption.
Qed.

Lemma getWordAtCursor_maximal_witness :
  8 <= length (str "make **bold** text") /\
  getWordAtCursor (str "make **bold** text") 8 = str "**bold**" /\
  exists before after,
    str "make **bold** text"
    = before ++ getWordAtCursor (str "make **bold** text") 8 ++ after /\
    length before <= 8.
Proof.
  assert (H : 8 <= length (str "make **bold** text")) by (simpl; lia).
  split; [exact H|]. split; [reflexivity|].
  destruct (getWordAtCursor_maximal (str "make **bold** text") 8 H)
    as (before & after & H1 & H2 & _).
  exists before, after. split; assumption.
Defined.

(** *** Headings *)

Lemma take_while_hashes (n : nat) (x : jsstring) :
  take_while (N.eqb HASH) (repeat HASH n ++ SPACE :: x) = repeat HASH n.
Proof.
  induction n as [|n IH]; [reflexivity|].
  cbn [repeat app take_while]. rewrite N.eqb_refl, IH. reflexivity.
Qed.

Lemma heading_marker_set (n : nat) (x : jsstring) :
  1 <= n -> n <= 6 ->
  heading_marker (repeat HASH n ++ SPACE :: x) = Some n.
Proof.
  intros H1 H6. unfold heading_marker. cbv zeta.
  rewrite take_while_hashes, repeat_length.
  assert (Hs : is_space_at (repeat HASH n ++ SPACE :: x) n = true).
  { unfold is_space_at.
    rewrite nth_error_app2 by (rewrite repeat_length; lia).
    rewrite repeat_length, Nat.sub_diag. reflexivity. }
  rewrite Hs.
  replace (1 <=? n) with true by (symmetry; apply Nat.leb_le; lia).
  replace (n <=? 6) with true by (symmetry; apply Nat.leb_le; lia).
  reflexivity.
Qed.

Lemma removeHeadingMarker_set (n : nat) (x : jsstring) :
  1 <= n -> n <= 6 ->
  removeHeadingMarker (repeat HASH n ++ SPACE :: x) = x.
Proof.
  intros H1 H6. unfold removeHeadingMarker.
  rewrite (heading_marker_set n x H1 H6).
  replace (S n) with (length (repeat HASH n ++ [SPACE]) + 0)
    by (rewrite length_app, repeat_length; simpl; lia).
  change (repeat HASH n ++ SPACE :: x)
    with (repeat HASH n ++ [SPACE] ++ x).
  rewrite app_assoc, skipn_app_shift. reflexivity.
Qed.

(** X16: a heading set by [applyHeading] is the one the toolbar shows and
    replaces the marker the line had.  For a level from 1 to 6, the heading
    select reads that level back from the new line, and applying any level
    or 'body' to the new line gives what it gives on the original line, so
    markers never pile up and 'body' removes the heading that was set. *)
Theorem applyHeading_round_trip (line : jsstring) (n : nat)
  (level : HeadingLevel) :
  1 <= n -> n <= 6 ->
  headingSelectValue (applyHeading line (heading n)) = heading n /\
  applyHeading (applyHeading line (heading n)) level
  = applyHeading line level /\
  applyHeading (applyHeading line (heading n)) body
  = removeHeadingMarker line.
Proof.
  intros H1 H6.
  assert (Hclean : removeHeadingMarker (applyHeading line (heading n))
                   = removeHeadingMarker line)
    by (apply removeHeadingMarker_set; assumption).
  split; [|split].
  - unfold headingSelectValue, applyHeading. cbv zeta.
    change (repeat HASH n ++ [SPACE] ++ removeHeadingMarker line)
      with (repeat HASH n ++ SPACE :: removeHeadingMarker line).
    rewrite heading_marker_set by assumption. reflexivity.
  - unfold applyHeading at 1. cbv zeta. rewrite Hclean. reflexivity.
  - unfold applyHeading at 1. cbv zeta. exact Hclean.
Qed.

Lemma applyHeading_round_trip_witness :
  1 <= 3 /\ 3 <= 6 /\
  headingSelectValue (applyHeading (str "## Title") (heading 3))
  = heading 3 /\
  applyHeading (applyHeading (str "## Title") (heading 3)) (heading 1)
  = str "# Title".
Proof.
  split; [lia|]. split; [lia|].
  destruct (applyHeading_round_trip (str "## Title") 3 (heading 1))
    as (H1 & H2 & _); [lia | lia |].
  split; [exact H1|]. rewrite H2. reflexivity.
Defined.

(** *** A quoted phrase *)

Lemma quote_only_last_tail (q a : code_unit) (s : jsstring) :
  quote_only_last q (a :: s) -> quote_only_last q s.
Proof.
  intros H pre post E. apply (H (a :: pre) post). rewrite E. reflexivity.
Qed.

Lemma quote_only_last_head (q a b : code_unit) (s : jsstring) :
  quote_only_last q (a :: b :: s) -> N.eqb a q = false.
Proof.
  intros H. destruct (N.eqb_spec a q) as [->|]; [|reflexivity].
  specialize (H [] (b :: s) eq_refl). discriminate H.
Qed.

Lemma quote_only_last_app (q : code_unit) (s tail : jsstring) :
  ~ In q s -> tail = [] \/ tail = [q] -> quote_only_last q (s ++ tail).
Proof.
  intros Hn Ht. induction s as [|a s IH].
  - destruct Ht as [-> | ->]; intros [|x pre] post E; simpl in E.
    + discriminate E.
    + discriminate E.
    + injection E as <-. reflexivity.
    + injection E as _ E. destruct pre; discriminate E.
  - intros [|x pre] post E; simpl in E.
    + injection E as -> _. exfalso. apply Hn. left. reflexivity.
    + injection E as _ E. apply (IH (fun H => Hn (or_intror H)) pre post E).
Qed.

Lemma replace_opening_skip (q r : code_unit) (start : bool)
  (a : code_unit) (s1 : jsstring) :
  (forall b s2, s1 = b :: s2 -> N.eqb a q = false) ->
  (forall b c s3, s1 = b :: c :: s3 -> N.eqb b q = false) ->
  (forall b c d s4, s1 = b :: c :: d :: s4 -> N.eqb c q = false) ->
  replace_opening q r start (a :: s1) = a :: replace_opening q r false s1.
Proof.
  intros H1 H2 H3.
  destruct s1 as [|b [|c [|d s4]]]; [reflexivity | | |].
  - specialize (H1 _ _ eq_refl). cbn [replace_opening].
    rewrite H1, andb_false_r. reflexivity.
  - specialize (H1 _ _ eq_refl). specialize (H2 _ _ _ eq_refl).
    cbn [replace_opening].
    rewrite H1, H2, !andb_false_r. reflexivity.
  - specialize (H1 _ _ eq_refl). specialize (H2 _ _ _ eq_refl).
    specialize (H3 _ _ _ _ eq_refl).
    cbn [replace_opening].
    rewrite H1, H2, H3, !andb_false_r. cbn [andb]. reflexivity.
Qed.

Lemma replace_opening_no_match (q r : code_unit) (s : jsstring)
  (start : bool) :
  quote_only_last q s -> replace_opening q r start s = s.
Proof.
  revert start. induction s as [|a s1 IH]; intros start H; [reflexivity|].
  pose proof (quote_only_last_tail _ _ _ H) as H'.
  rewrite replace_opening_skip.
  - rewrite IH by assumption. reflexivity.
  - intros b s2 ->. apply (quote_only_last_head _ _ _ _ H).
  - intros b c s3 ->. apply (quote_only_last_head _ _ _ _ H').
  - intros b c d s4 ->.
    apply (quote_only_last_head _ _ _ _ (quote_only_last_tail _ _ _ H')).
Qed.

Lemma replace_apostrophe_skip (a : code_unit) (s1 : jsstring) :
  is_word_class a = false \/
  (forall b c s3, s1 = b :: c :: s3 -> N.eqb b SQUOTE = false) ->
  replace_apostrophe (a :: s1) = a :: replace_apostrophe s1.
Proof.
  intros H. destruct s1 as [|b [|c s3]]; [reflexivity | reflexivity |].
  cbn [replace_apostrophe].
  destruct H as [H | H].
  - rewrite H. reflexivity.
  - rewrite (H _ _ _ eq_refl), andb_false_r. reflexivity.
Qed.

Lemma replace_apostrophe_no_match (s : jsstring) :
  quote_only_last SQUOTE s -> replace_apostrophe s = s.
Proof.
  induction s as [|a s1 IH]; intros H; [reflexivity|].
  pose proof (quote_only_last_tail _ _ _ H) as H'.
  rewrite replace_apostrophe_skip.
  - rewrite IH by assumption. reflexivity.
  - right. intros b c s3 ->. apply (quote_only_last_head _ _ _ _ H').
Qed.

Lemma replace_closing_skip (a : code_unit) (s1 : jsstring) :
  (forall b s2, s1 = b :: s2 -> N.eqb b DQUOTE = false) ->
  replace_closing (a :: s1) = a :: replace_closing s1.
Proof.
  intros H. destruct s1 as [|b s2]; [reflexivity|].
  cbn [replace_closing]. rewrite (H _ _ eq_refl), andb_false_r.
  reflexivity.
Qed.

Lemma not_quote_eqb (q b : code_unit) (s : jsstring) :
  ~ In q (b :: s) -> N.eqb b q = false.
Proof.
  intros H. destruct (N.eqb_spec b q) as [->|]; [|reflexivity].
  exfalso. apply H. left. reflexivity.
Qed.

Lemma replace_closing_no_quote (s : jsstring) :
  ~ In DQUOTE s -> replace_closing s = s.
Proof.
  induction s as [|a s IH]; intros Hn; [reflexivity|].
  assert (Hs : ~ In DQUOTE s) by (intros Hin; apply Hn; right; assumption).
  rewrite replace_closing_skip.
  - rewrite IH by assumption. reflexivity.
  - intros b s2 ->. apply (not_quote_eqb _ _ _ Hs).
Qed.

Lemma replace_closing_last (s : jsstring) (c : code_unit) :
  ~ In DQUOTE (s ++ [c]) -> is_non_space c = true ->
  replace_closing (s ++ [c; DQUOTE]) = s ++ [c; RDQUO].
Proof.
  intros Hn Hc. induction s as [|a s IH].
  - cbn [app replace_closing]. rewrite Hc, N.eqb_refl. reflexivity.
  - assert (Hs : ~ In DQUOTE (s ++ [c]))
      by (intros Hin; apply Hn; right; assumption).
    cbn [app]. rewrite replace_closing_skip; [rewrite (IH Hs); reflexivity|].
    intros b s2 E. destruct s as [|x s]; cbn [app] in E, Hs;
      injection E as <- _; apply (not_quote_eqb _ _ _ Hs).
Qed.

Lemma replace_single_no_quote (s : jsstring) :
  ~ In SQUOTE s -> replace_single s = s.
Proof.
  induction s as [|a s IH]; intros Hn; [reflexivity|].
  simpl. rewrite IH by (intros Hin; apply Hn; right; assumption).
  destruct (N.eqb_spec a SQUOTE) as [->|]; [|reflexivity].
  exfalso. apply Hn. left. reflexivity.
Qed.

Lemma not_in_cons_app (q x : code_unit) (s tail : jsstring) :
  x <> q -> ~ In q s -> ~ In q tail -> ~ In q (x :: s ++ tail).
Proof.
  intros Hx Hs Ht [H | H]; [congruence|].
  apply in_app_or in H. tauto.
Qed.

(** X17: a phrase between straight quotes gets the matching curly quotes.
    For a phrase that holds no straight quote and starts with a character
    that is not white space, [convertQuotesInText] turns the phrase
    between straight single quotes into the phrase between a left and a
    right curly single quote, and, when the phrase also ends with a
    character that is not white space, the phrase between straight double
    quotes into the phrase between a left and a right curly double
    quote. *)
Theorem convertQuotesInText_quoted_phrase (b : code_unit)
  (phrase : jsstring) (e : code_unit) :
  ~ In DQUOTE (b :: phrase ++ [e]) -> ~ In SQUOTE (b :: phrase ++ [e]) ->
  is_non_space b = true ->
  convertQuotesInText ([SQUOTE] ++ (b :: phrase ++ [e]) ++ [SQUOTE])
  = [LSQUO] ++ (b :: phrase ++ [e]) ++ [RSQUO] /\
  (is_non_space e = true ->
   convertQuotesInText ([DQUOTE] ++ (b :: phrase ++ [e]) ++ [DQUOTE])
   = [LDQUO] ++ (b :: phrase ++ [e]) ++ [RDQUO]).
Proof.
  intros Hd Hs Hb.
  assert (Hd' : ~ In DQUOTE (phrase ++ [e]))
    by (intros H; apply Hd; right; assumption).
  assert (Hs' : ~ In SQUOTE (phrase ++ [e]))
    by (intros H; apply Hs; right; assumption).
  assert (Hbd : b <> DQUOTE) by (intros ->; apply Hd; left; reflexivity).
  assert (Hbs : b <> SQUOTE) by (intros ->; apply Hs; left; reflexivity).
  unfold convertQuotesInText. split.
  - (* single quotes *)
    assert (Hnd : ~ In DQUOTE ([SQUOTE] ++ (b :: phrase ++ [e]) ++ [SQUOTE])).
    { cbn [app]. intros [H | H]; [discriminate H|].
      rewrite app_comm_cons in H. apply in_app_or in H.
      destruct H as [H | [H | []]]; [tauto | discriminate H]. }
    rewrite (replace_opening_no_match DQUOTE LDQUO _ true)
      by (rewrite <- (app_nil_r (_ ++ _));
          apply quote_only_last_app; [assumption | left; reflexivity]).
    rewrite (replace_closing_no_quote _ Hnd).
    assert (H3 : replace_apostrophe
                   ([SQUOTE] ++ (b :: phrase ++ [e]) ++ [SQUOTE])
                 = [SQUOTE] ++ (b :: phrase ++ [e]) ++ [SQUOTE]).
    { cbn [app]. rewrite replace_apostrophe_skip by (left; reflexivity).
      f_equal.
      change (b :: (phrase ++ [e]) ++ [SQUOTE])
        with ((b :: phrase ++ [e]) ++ [SQUOTE]).
      apply replace_apostrophe_no_match.
      apply quote_only_last_app; [assumption | right; reflexivity]. }
    rewrite H3. cbn [app replace_opening].
    rewrite N.eqb_refl, Hb. cbn [andb].
    rewrite (replace_opening_no_match SQUOTE LSQUO _ false)
      by (apply quote_only_last_app; [assumption | right; reflexivity]).
    change (LSQUO :: b :: (phrase ++ [e]) ++ [SQUOTE])
      with ((LSQUO :: b :: phrase ++ [e]) ++ [SQUOTE]).
    unfold replace_single. rewrite map_app.
    fold (replace_single (LSQUO :: b :: phrase ++ [e])).
    rewrite replace_single_no_quote; [reflexivity|].
    intros [H | H]; [discriminate H | apply Hs; assumption].
  - (* double quotes *)
    intros He. cbn [app replace_opening].
    rewrite N.eqb_refl, Hb. cbn [andb].
    rewrite (replace_opening_no_match DQUOTE LDQUO _ false)
      by (apply quote_only_last_app; [assumption | right; reflexivity]).
    assert (H2 : replace_closing (LDQUO :: b :: (phrase ++ [e]) ++ [DQUOTE])
                 = LDQUO :: b :: phrase ++ [e; RDQUO]).
    { replace (LDQUO :: b :: (phrase ++ [e]) ++ [DQUOTE])
        with ((LDQUO :: b :: phrase) ++ [e; DQUOTE])
        by (cbn [app]; rewrite <- app_assoc; reflexivity).
      rewrite replace_closing_last; [reflexivity| |assumption].
      cbn [app]. intros [H | [H | H]]; [discriminate H | congruence | tauto]. }
    rewrite H2.
    assert (Hns : ~ In SQUOTE (LDQUO :: b :: phrase ++ [e; RDQUO])).
    { intros [H | [H | H]]; [discriminate H | congruence |].
      apply in_app_or in H. destruct H as [H | [H | [H | []]]].
      - apply Hs'. apply in_or_app. left. assumption.
      - apply Hs'. apply in_or_app. right. left. assumption.
      - discriminate H. }
    rewrite replace_apostrophe_no_match
      by (rewrite <- (app_nil_r (_ :: _));
          apply quote_only_last_app; [assumption | left; reflexivity]).
    rewrite (replace_opening_no_match SQUOTE LSQUO _ true)
      by (rewrite <- (app_nil_r (_ :: _));
          apply quote_only_last_app; [assumption | left; reflexivity]).
    rewrite (replace_single_no_quote _ Hns).
    cbn [app]. rewrite <- app_assoc. reflexivity.
Qed.

Lemma convertQuotesInText_quoted_phrase_witness :
  ~ In DQUOTE (104%N :: str "ell" ++ [111%N]) /\
  ~ In SQUOTE (104%N :: str "ell" ++ [111%N]) /\
  is_non_space 104%N = true /\ is_non_space 111%N = true /\
  convertQuotesInText ([DQUOTE] ++ str "hello" ++ [DQUOTE])
  = [LDQUO] ++ str "hello" ++ [RDQUO].
Proof.
  assert (H1 : ~ In DQUOTE (104%N :: str "ell" ++ [111%N]))
    by (vm_compute; intuition discriminate).
  assert (H2 : ~ In SQUOTE (104%N :: str "ell" ++ [111%N]))
    by (vm_compute; intuition discriminate).
  split; [exact H1|]. split; [exact H2|].
  split; [reflexivity|]. split; [reflexivity|].
  exact (proj2 (convertQuotesInText_quoted_phrase 104%N (str "ell") 111%N
                  H1 H2 eq_refl) eq_refl).
Defined.

(** ** AP and APA *)

Lemma getPOSTag_not_infinitive (term : Term) :
  getPOSTag term <> Some infinitive.
Proof. unfold getPOSTag. branch_cases; discriminate. Qed.

Lemma determineGrammaticalFunction_infinitive (word : jsstring)
  (term : Term) :
  determineGrammaticalFunction word term (getPOSTag term) = Some infinitive ->
  toLowerCase word = str "to".
Proof.
  pose proof (getPOSTag_not_infinitive term) as Hn.
  unfold determineGrammaticalFunction. cbv zeta.
  destruct (streq (toLowerCase word) (str "to")) eqn:Et;
    [intros _; apply streq_eq; assumption|].
  destruct (getPOSTag term) as [[]|]; try congruence;
    cbn [posTag_is POS_eqb orb]; branch_cases; discriminate.
Qed.

Lemma tags_of_word_infinitive (terms : list (option Term)) (k : nat)
  (m : jsstring) (tag : option POS) :
  tags_of_word terms k m = (tag, Some infinitive) ->
  toLowerCase m = str "to".
Proof.
  unfold tags_of_word.
  destruct (nth_error terms k) as [[term|]|]; try discriminate.
  destruct (determineGrammaticalFunction_throws m term (getPOSTag term));
    [discriminate|].
  intros H. injection H as _ H.
  apply (determineGrammaticalFunction_infinitive m term H).
Qed.

Lemma tokenize_infinitive (nlp : option Tagger) (text : jsstring)
  (pre post : list Token) (t : Token) (w : jsstring) :
  tokenize nlp text = pre ++ t :: post -> word t = Some w ->
  grammaticalFunction t = Some infinitive -> toLowerCase w = str "to".
Proof.
  intros Hs Hw Hg.
  pose proof (tokenize_loop_tags (S (length text))
                (match nlp with Some tg => tg text | None => [] end) text
                (length (match_all text)) 0 0 false) as H.
  change (tokenize_loop _ _ _ _ _ _ _ _) with (tokenize nlp text) in H.
  rewrite Hs in H.
  pose proof (tags_from_split _ 0 pre post t H (word_is_word_token _ _ Hw))
    as Ht.
  rewrite Hg in Ht.
  pose proof (tokenize_in_well_formed _ _ _ _ _ Hs) as Hwf.
  unfold well_formed_token in Hwf. rewrite Hw in Hwf.
  destruct Hwf as (Ho & _). rewrite Ho in Ht. symmetry in Ht.
  apply (tags_of_word_infinitive _ _ _ _ Ht).
Qed.

Lemma applyAPRules_APA (w : jsstring) :
  streq (toLowerCase w) (str "to") = false ->
  applyAPRules w (toLowerCase w) = applyAPARules w (toLowerCase w).
Proof.
  intros Hto. unfold applyAPRules, applyAPARules. rewrite Hto.
  destruct (Nat.leb_spec 4 (length w)); [reflexivity|].
  replace (length w <=? 3) with true by (symmetry; apply Nat.leb_le; lia).
  rewrite !andb_true_r. reflexivity.
Qed.

Lemma applyNLPAwareRules_AP_APA (w lw : jsstring) (g : POS)
  (tag : option POS) :
  g <> infinitive ->
  applyNLPAwareRules w lw g tag AP = applyNLPAwareRules w lw g tag APA.
Proof. intros H. destruct g; try reflexivity. congruence. Qed.

(** X18: AP and APA differ on the word "to" and on the last word only.
    Every word other than "to" (in any letter case) that is followed by
    another word is converted alike under the two styles, with or without
    a tagger.  A "to" that is neither the first nor the last word is
    capitalized under AP and lower-cased under APA when it has no
    grammatical function (as with no tagger) or is resolved to the "to" of
    an infinitive or to a conjunction; resolved to a preposition or an
    article it is lower-cased under both styles, and resolved to a verb,
    noun, adjective, adverb or pronoun it is capitalized under both. *)
Theorem ap_apa_differ_on_to_and_last_word_only :
  (forall (nlp : option Tagger) (text : jsstring) (pre post : list Token)
          (t : Token) (w : jsstring),
     tokenize nlp text = pre ++ t :: post -> word t = Some w ->
     existsb is_word_token post = true ->
     toLowerCase w <> str "to" ->
     convertToken AP t = convertToken APA t) /\
  (forall (nlp : option Tagger) (text : jsstring) (pre post : list Token)
          (t : Token) (w : jsstring),
     tokenize nlp text = pre ++ t :: post -> word t = Some w ->
     existsb is_word_token pre = true ->
     existsb is_word_token post = true ->
     toLowerCase w = str "to" ->
     match grammaticalFunction t with
     | None | Some infinitive | Some conjunction =>
       convertToken AP t = capitalize w /\
       convertToken APA t = toLowerCase w
     | Some preposition | Some article =>
       convertToken AP t = toLowerCase w /\
       convertToken APA t = toLowerCase w
     | Some _ =>
       convertToken AP t = capitalize w /\
       convertToken APA t = capitalize w
     end) /\
  (toTitleCase None (str "how to be") AP = str "How To Be" /\
   toTitleCase None (str "how to be") APA = str "How to Be") /\
  (toTitleCase (Some go_to_school_tagger) (str "go to school") AP
   = str "Go to School" /\
   toTitleCase (Some go_to_school_tagger) (str "go to school") APA
   = str "Go to School").
Proof.
  split; [|split; [|split; split; vm_compute; reflexivity]].
  - intros nlp text pre post t w Hs Hw Hpost Hto.
    assert (Hin : In t (tokenize nlp text)) by (rewrite Hs; apply in_elt).
    rewrite !(convertToken_tokenized nlp text _ t w Hin Hw).
    destruct (tokenize_flags _ _ _ _ _ Hs (word_is_word_token _ _ Hw))
      as [_ Hl].
    rewrite Hl, Hpost. unfold applyPlainWordRules. cbn [negb andb].
    cbv zeta.
    destruct (isFirstWord t); [reflexivity|].
    cbn [andb].
    change (applyStaticRules w (toLowerCase w) AP)
      with (applyAPRules w (toLowerCase w)).
    change (applyStaticRules w (toLowerCase w) APA)
      with (applyAPARules w (toLowerCase w)).
    assert (Hto' : streq (toLowerCase w) (str "to") = false).
    { destruct (streq (toLowerCase w) (str "to")) eqn:E; [|reflexivity].
      apply streq_eq in E. contradiction. }
    rewrite (applyAPRules_APA w Hto').
    destruct (grammaticalFunction t) as [g|] eqn:Hg; [|reflexivity].
    rewrite applyNLPAwareRules_AP_APA; [reflexivity|].
    intros ->. apply Hto.
    apply (tokenize_infinitive nlp text pre post t w Hs Hw Hg).
  - intros nlp text pre post t w Hs Hw Hpre Hpost Hto.
    rewrite !(convertToken_mid_sentence nlp text _ pre post t w Hs Hw Hpre
                (or_introl Hpost)).
    assert (Hlen : length w = 2)
      by (rewrite <- (length_toLowerCase w), Hto; reflexivity).
    unfold applyMidSentenceRules, applyNLPAwareRules, applyPrepositionRules,
      applyStaticRules, applyAPRules, applyAPARules.
    rewrite Hto, Hlen.
    destruct (grammaticalFunction t) as [[]|]; split; reflexivity.
Qed.

Lemma ap_apa_differ_on_to_and_last_word_only_witness :
  tokenize (Some go_to_school_tagger) (str "go to school")
  = firstn 2 (tokenize (Some go_to_school_tagger) (str "go to school"))
    ++ tagged_token (str "to") false false (Some preposition)
         (Some preposition)
    :: skipn 3 (tokenize (Some go_to_school_tagger) (str "go to school")) /\
  toLowerCase (str "to") = str "to" /\
  convertToken AP
    (tagged_token (str "to") false false (Some preposition)
       (Some preposition))
  = toLowerCase (str "to").
Proof.
  assert (Hs : tokenize (Some go_to_school_tagger) (str "go to school")
    = firstn 2 (tokenize (Some go_to_school_tagger) (str "go to school"))
      ++ tagged_token (str "to") false false (Some preposition)
           (Some preposition)
      :: skipn 3 (tokenize (Some go_to_school_tagger) (str "go to school")))
    by (vm_compute; reflexivity).
  split; [exact Hs|]. split; [reflexivity|].
  exact (proj1 (proj1 (proj2 ap_apa_differ_on_to_and_last_word_only)
                  (Some go_to_school_tagger) (str "go to school") _ _ _
                  (str "to") Hs eq_refl eq_refl eq_refl eq_refl)).
Defined.
